(** * The code-graph tool of potpie: tree builder, path normaliser, assembler

    Shallow embedding of
    [app/modules/intelligence/tools/code_query_tools/get_code_graph_from_node_id_tool.py]
    (class [GetCodeGraphFromNodeIdTool]) and the properties of its
    specification.

    Python dictionaries of a fixed shape are records; a key that may be
    missing is an [option].  The records of the list [nodes] are objects that
    [build_node_tree] updates in place: the list itself is the store, a
    reference to a record is its position in the list, and [node_map] maps an
    id to such a position.

    A list of children and the child dictionaries in it are values inside
    the record that owns them.  The rows come fresh from the driver, so no
    list or child dictionary is shared at the start; the one sharing the
    code creates is [child["children"] = built_child["children"]], made
    when the record [built_child] is finished, and neither that list nor
    its elements are written afterwards.  A copy and the shared list then
    read the same.

    Exceptions are values of [exn] carried by [outcome].  [_build_tree],
    [_get_graph_data] and [run] are the code on an interpreter that has
    room for every level of the recursion of the builder; the module
    [Limited] holds the same three under the recursion limit of the
    interpreter, where a call nested too deep raises [RecursionError].
    Under the limit the code raises that error or does what it does with
    room, so what it returns under the limit it returns with room too. *)

From Stdlib Require Import ZArith String Ascii.
From stdpp Require Import base option list strings pretty gmap sets.

Local Open Scope string_scope.
Local Open Scope nat_scope.
#[local] Set Warnings "-register-all,-clear-no-such-hyp".

(** ** Outcomes of a Python computation *)

(** The exceptions of the embedding, all of them subclasses of
    [Exception]: each carries what its [str()] is made of. *)
Inductive exn : Type :=
  | KeyError (key : string)
  | ValueError (msg : string)
  | RecursionError (msg : string)
  | Exception (msg : string).

Definition backslash : ascii := ascii_of_nat 92.
Definition quotation_mark : ascii := ascii_of_nat 34.
Definition apostrophe : ascii := ascii_of_nat 39.

(** A lower-case hexadecimal digit. *)
Definition hex_digit (n : nat) : ascii :=
  ascii_of_nat (if n <? 10 then 48 + n else 87 + n).

(** [str.isprintable] on a code point below 256: the controls, the
    no-break space (160) and the soft hyphen (173) are not printable. *)
Definition printable (n : nat) : bool :=
  ((32 <=? n) && (n <? 127) || (161 <=? n) && negb (n =? 173))%bool.

(** One character of [repr(s)], between quotes [quote]. *)
Definition repr_char (quote ch : ascii) : string :=
  let n := nat_of_ascii ch in
  if (Ascii.eqb ch quote || Ascii.eqb ch backslash)%bool
  then String backslash (String ch "")
  else if n =? 9 then String backslash "t"
  else if n =? 10 then String backslash "n"
  else if n =? 13 then String backslash "r"
  else if printable n then String ch ""
  else String backslash
         (String "x" (String (hex_digit (n / 16)) (String (hex_digit (n mod 16)) ""))).

(** [repr(s)] of a string, a character of the embedding standing for a
    code point below 256: apostrophes around the text, quotation marks
    instead when the text holds an apostrophe and no quotation mark; the
    quote character and the backslash escaped, tab, line feed and carriage
    return written with their letter, and any other character that is not
    printable as a two-digit hexadecimal escape. *)
Definition repr (s : string) : string :=
  let chars := list_ascii_of_string s in
  let quote :=
    if (existsb (Ascii.eqb apostrophe) chars &&
        negb (existsb (Ascii.eqb quotation_mark) chars))%bool
    then quotation_mark else apostrophe in
  String quote (String.concat "" (repr_char quote <$> chars) ++ String quote "").

(** [str(e)]: the representation of the key for a [KeyError], the message
    for the others. *)
Definition exn_str (e : exn) : string :=
  match e with
  | KeyError key => repr key
  | ValueError msg => msg
  | RecursionError msg => msg
  | Exception msg => msg
  end.

(** [Ret]: the code returns; [Raise]: it raises; [Stuck]: the embedding
    stopped (a budget of steps used up, or a reference to no object), which
    no run of the Python code does. *)
Inductive outcome (A : Type) : Type :=
  | Ret (a : A)
  | Raise (e : exn)
  | Stuck.
Arguments Ret {A} a.
Arguments Raise {A} e.
Arguments Stuck {A}.

Definition obind {A B} (m : outcome A) (k : A → outcome B) : outcome B :=
  match m with
  | Ret a => k a
  | Raise e => Raise e
  | Stuck => Stuck
  end.

Notation "x ←! m ; k" := (obind m (λ x, k))
  (at level 20, m at level 100, k at level 200, only parsing).
Notation "' p ←! m ; k" := (obind m (λ x, match x with p => k end))
  (at level 20, p pattern, m at level 100, k at level 200, only parsing).

(** ** Data model *)

(** The scalar keys shared by a node record and a child reference
    (the two maps of the Cypher query, lines 103-120). *)
Record Fields : Type := mkFields {
  f_id : string;
  f_name : string;
  f_type : string;
  f_file_path : string;
  f_start_line : option Z;
  f_end_line : option Z;
}.

(** A child reference: the scalar keys, ["relationship"], and the key
    ["children"], which is absent ([None]) until the builder sets it. *)
Inductive ChildRef : Type :=
  mkChildRef {
    c_fields : Fields;
    relationship : string;
    c_children : option (list ChildRef);
  }.

(** A node record of the fetcher: the scalar keys and ["children"]. *)
Record NodeRecord : Type := mkNodeRecord {
  r_fields : Fields;
  children : list ChildRef;
}.

Definition c_id (c : ChildRef) : string := f_id (c_fields c).
Definition r_id (r : NodeRecord) : string := f_id (r_fields r).

(** An output node of [process_node]; ["relationship"] is set by the parent,
    so it is absent on the root. *)
Inductive TreeNode : Type :=
  mkTreeNode {
    t_id : string;
    t_name : string;
    t_type : string;
    t_file_path : string;
    t_start_line : option Z;
    t_end_line : option Z;
    t_children : list TreeNode;
    t_relationship : option string;
  }.

Record Project : Type := mkProject {
  repo_name : string;
  branch_name : string;
}.

Record Graph : Type := mkGraph {
  g_name : string;
  g_repo_name : string;
  g_branch_name : string;
  root_node : TreeNode;
}.

(** The dictionary [run] returns: [{"graph": ...}] or [{"error": ...}]. *)
Inductive Response : Type :=
  | GraphResponse (graph : Graph)
  | ErrorResponse (error : string).

(** ** Path normaliser: [_get_relative_file_path] *)

(** [s.split(sep)] for a one-character separator. *)
Fixpoint split (sep : ascii) (s : string) : list string :=
  match s with
  | EmptyString => [EmptyString]
  | String ch rest =>
      if Ascii.eqb ch sep then EmptyString :: split sep rest
      else match split sep rest with
           | [] => [String ch EmptyString]
           | seg :: segs => String ch seg :: segs
           end
  end.

(** [sep.join(parts)]. *)
Fixpoint join (sep : string) (parts : list string) : string :=
  match parts with
  | [] => ""
  | [p] => p
  | p :: ps => p ++ sep ++ join sep ps
  end.

(** [parts.index(x)]: the first position of [x]; [None] is the
    [ValueError] of Python. *)
Fixpoint index (x : string) (parts : list string) : option nat :=
  match parts with
  | [] => None
  | p :: ps => if String.eqb p x then Some 0 else S <$> index x ps
  end.

Definition _get_relative_file_path (file_path : string) : string :=
  if (String.eqb file_path "" || String.eqb file_path "Unknown")%bool
  then "Unknown"
  else
    let parts := split "/" file_path in
    match index "projects" parts with
    | Some projects_index => join "/" (drop (projects_index + 2) parts)
    | None => file_path
    end.

(** A path is absolute when it starts at the file-system root. *)
Definition is_absolute (p : string) : bool :=
  match p with
  | String ch _ => Ascii.eqb ch "/"
  | EmptyString => false
  end.

(** ** Tree builder: [_build_tree] and its closure [build_node_tree] *)

#[global] Instance Fields_eq_dec : EqDecision Fields.
Proof. solve_decision. Defined.

(** [a == b] on two child dictionaries: the same keys with equal values,
    the lists under ["children"] compared element by element. *)
Fixpoint child_eqb (a b : ChildRef) : bool :=
  match a, b with
  | mkChildRef fa ra ka, mkChildRef fb rb kb =>
      bool_decide (fa = fb) && bool_decide (ra = rb) &&
      match ka, kb with
      | None, None => true
      | Some la, Some lb =>
          (fix all_eqb (la lb : list ChildRef) {struct la} : bool :=
             match la, lb with
             | [], [] => true
             | x :: xs, y :: ys => child_eqb x y && all_eqb xs ys
             | _, _ => false
             end) la lb
      | _, _ => false
      end
  end.

(** [l.remove(x)]: drops the first element equal to [x]; [None] is the
    [ValueError] of Python when there is none. *)
Fixpoint list_remove (x : ChildRef) (l : list ChildRef) : option (list ChildRef) :=
  match l with
  | [] => None
  | y :: ys => if child_eqb y x then Some ys else (y ::.) <$> list_remove x ys
  end.

(** [{node["id"]: node for node in nodes}], the position [i] standing for
    the record object [nodes[i]]: a later record with the same id replaces an
    earlier one. *)
Fixpoint index_nodes (i : nat) (nodes : list NodeRecord)
    (node_map : gmap string nat) : gmap string nat :=
  match nodes with
  | [] => node_map
  | node :: rest => index_nodes (S i) rest (<[r_id node := i]> node_map)
  end.

Definition make_node_map (nodes : list NodeRecord) : gmap string nat :=
  index_nodes 0 nodes ∅.

(** What [build_node_tree] reads and writes besides its argument: the set
    [visited] and the record objects. *)
Record BuildState : Type := mkBuildState {
  visited : gset string;
  objects : list NodeRecord;
}.

Definition deref (ref : nat) (st : BuildState) : outcome NodeRecord :=
  match objects st !! ref with
  | Some r => Ret r
  | None => Stuck
  end.

(** [visited.add(k)]. *)
Definition visited_add (k : string) (st : BuildState) : BuildState :=
  {| visited := {[k]} ∪ visited st; objects := objects st |}.

(** [node["children"] = l] on the record object [ref]. *)
Definition set_children (ref : nat) (l : list ChildRef) (st : BuildState) : BuildState :=
  {| visited := visited st;
     objects := alter (λ r, {| r_fields := r_fields r; children := l |}) ref (objects st) |}.

(** [child["children"] = l] on a child dictionary. *)
Definition with_children (l : list ChildRef) (c : ChildRef) : ChildRef :=
  {| c_fields := c_fields c; relationship := relationship c; c_children := Some l |}.

Section build_node_tree.
Variable node_map : gmap string nat.

(** The [for child in current_node["children"]] loop.  The list iterator
    of Python is the position [it] in the live list, read again at every
    step, so that an element removed at or before [it] shifts the rest
    under the iterator.  [call] is the recursive call; [n] bounds the
    number of steps. *)
Fixpoint for_children (call : nat → BuildState → outcome (option nat * BuildState))
    (current_node : nat) (n it : nat) (st : BuildState) {struct n} : outcome BuildState :=
  match n with
  | O => Stuck
  | S n' =>
      cur ←! deref current_node st;
      match children cur !! it with
      | None => Ret st
      | Some child =>
          match node_map !! c_id child with
          | None => Raise (KeyError (c_id child))
          | Some child_node =>
              '(built_child, st) ←! call child_node st;
              cur ←! deref current_node st;
              match built_child with
              | Some built =>
                  b ←! deref built st;
                  for_children call current_node n' (S it)
                    (set_children current_node
                       (alter (with_children (children b)) it (children cur)) st)
              | None =>
                  match list_remove child (children cur) with
                  | None => Raise (ValueError "list.remove(x): x not in list")
                  | Some l =>
                      for_children call current_node n' (S it)
                        (set_children current_node l st)
                  end
              end
          end
      end
  end.

(** [build_node_tree(current_node)]; the result [None] is Python's [None],
    [Some ref] the record object returned.  [fuel] bounds the depth of the
    recursion; the limit the interpreter puts on it is in
    [Limited.build_node_tree]. *)
Fixpoint build_node_tree (fuel : nat) (current_node : nat) (st : BuildState)
    {struct fuel} : outcome (option nat * BuildState) :=
  match fuel with
  | O => Stuck
  | S fuel' =>
      cur ←! deref current_node st;
      if decide (r_id cur ∈ visited st) then Ret (None, st)
      else
        let st := visited_add (r_id cur) st in
        let kept :=
          filter (λ child, is_Some (node_map !! c_id child)) (children cur) in
        let st := set_children current_node kept st in
        st ←! for_children (build_node_tree fuel') current_node
                 (S (length kept)) 0 st;
        Ret (Some current_node, st)
  end.
End build_node_tree.

(** [_build_tree(nodes, root_id)].  Returned with the result: the record
    objects of [nodes] as the call leaves them.  The depth allowed is one
    more than the number of ids, which the recursion never exceeds. *)
Definition _build_tree (nodes : list NodeRecord) (root_id : string)
    : outcome (option NodeRecord * list NodeRecord) :=
  let node_map := make_node_map nodes in
  match node_map !! root_id with
  | None => Ret (None, nodes)
  | Some root =>
      '(built, st) ←! build_node_tree node_map (S (size node_map)) root
                        {| visited := ∅; objects := nodes |};
      match built with
      | None => Ret (None, objects st)
      | Some ref => r ←! deref ref st; Ret (Some r, objects st)
      end
  end.

(** ** Response assembler: [_process_graph_data] and its closure [process_node] *)

(** The dictionary literal of [process_node], the children already
    processed. *)
Definition processed_node (f : Fields) (kids : list TreeNode) : TreeNode :=
  {| t_id := f_id f;
     t_name := f_name f;
     t_type := f_type f;
     t_file_path := _get_relative_file_path (f_file_path f);
     t_start_line := f_start_line f;
     t_end_line := f_end_line f;
     t_children := kids;
     t_relationship := None |}.

(** [processed_child["relationship"] = rel]. *)
Definition set_relationship (rel : string) (t : TreeNode) : TreeNode :=
  {| t_id := t_id t; t_name := t_name t; t_type := t_type t;
     t_file_path := t_file_path t;
     t_start_line := t_start_line t; t_end_line := t_end_line t;
     t_children := t_children t;
     t_relationship := Some rel |}.

(** [process_node] on a child dictionary; [node.get("children", [])] is the
    empty list when the key is absent. *)
Fixpoint process_child (node : ChildRef) : TreeNode :=
  match node with
  | mkChildRef f _ kids =>
      processed_node f
        match kids with
        | None => []
        | Some l =>
            map (λ child, set_relationship (relationship child) (process_child child)) l
        end
  end.

(** [process_node] on a dictionary with the scalar keys [f] and the value
    [kids] of [node.get("children")]. *)
Definition process_node (f : Fields) (kids : option (list ChildRef)) : TreeNode :=
  processed_node f
    (map (λ child, set_relationship (relationship child) (process_child child))
         (default [] kids)).

Definition _process_graph_data (graph_data : NodeRecord) (project : Project) : Response :=
  let root_node := process_node (r_fields graph_data) (Some (children graph_data)) in
  GraphResponse
    {| g_name := "Code Graph for " ++ repo_name project;
       g_repo_name := repo_name project;
       g_branch_name := branch_name project;
       root_node := root_node |}.

(** ** The operation [run] *)

(** What [run] does to the outside: queries of the two stores, and the
    message given to [logging.exception]. *)
Inductive Event : Type :=
  | SqlQuery (project_id : string)
  | GraphQuery (project_id node_id : string)
  | LogException (msg : string).

(** A computation with its events, in the order they happen. *)
Definition traced (A : Type) : Type := (outcome A * list Event)%type.

Definition tret {A} (a : A) : traced A := (Ret a, []).

Definition tbind {A B} (m : traced A) (k : A → traced B) : traced B :=
  match m with
  | (Ret a, log) => let '(r, log') := k a in (r, (log ++ log')%list)
  | (Raise e, log) => (Raise e, log)
  | (Stuck, log) => (Stuck, log)
  end.

(** [try: body except Exception as e: handler(e)]. *)
Definition try_except {A} (body : traced A) (handler : exn → traced A) : traced A :=
  match body with
  | (Raise e, log) => let '(r, log') := handler e in (r, (log ++ log')%list)
  | other => other
  end.

Notation "x ←? m ; k" := (tbind m (λ x, k))
  (at level 20, m at level 100, k at level 200, only parsing).

Section run.
(** The two stores: [sql_first project_id] is the result of
    [self.sql_db.query(Project).filter(Project.id == project_id).first()],
    [graph_rows project_id node_id] the [node_data] of the rows of
    [session.run(query, node_id=node_id, project_id=project_id)]; either
    may raise ([inl]). *)
Variable sql_first : string → exn + option Project.
Variable graph_rows : string → string → exn + list NodeRecord.

Definition of_sum {A} (r : exn + A) : outcome A :=
  match r with inl e => Raise e | inr a => Ret a end.

Definition _get_project (project_id : string) : traced (option Project) :=
  (of_sum (sql_first project_id), [SqlQuery project_id]).

Definition _get_graph_data (project_id node_id : string) : traced (option NodeRecord) :=
  nodes ←? (of_sum (graph_rows project_id node_id), [GraphQuery project_id node_id]);
  match nodes with
  | [] => tret None
  | _ => ('(root, _) ←! _build_tree nodes node_id; Ret root, [])
  end.

(** The body of the [try] of [run]. *)
Definition run_try (project_id node_id : string) : traced Response :=
  project ←? _get_project project_id;
  match project with
  | None =>
      tret (ErrorResponse
              ("Project with ID '" ++ project_id ++ "' not found in database"))
  | Some project =>
      graph_data ←? _get_graph_data project_id node_id;
      match graph_data with
      | None =>
          tret (ErrorResponse
                  ("No graph data found for node ID '" ++ node_id ++
                   "' in repo '" ++ project_id ++ "'"))
      | Some graph_data => tret (_process_graph_data graph_data project)
      end
  end.

(** The handler [except Exception as e] of [run]. *)
Definition run_except (e : exn) : traced Response :=
  let msg := "An unexpected error occurred: " ++ exn_str e in
  (Ret (ErrorResponse msg), [LogException msg]).

Definition run (project_id node_id : string) : traced Response :=
  try_except (run_try project_id node_id) run_except.
End run.

(** ** The recursion limit of the interpreter *)

(** What the interpreter adds to the code: [recursion_limit] is the number
    of nested calls of [build_node_tree] it has room for when [_build_tree]
    makes the first one (its limit less the frames in use by then; a level
    of the recursion counts as one frame, the calls of built-in methods
    inside a level are not counted apart), and [recursion_message] the text
    of the [RecursionError] it raises when a call goes beyond. *)
Record Interpreter : Type := mkInterpreter {
  recursion_limit : nat;
  recursion_message : string;
}.

(** The builder and [run] under an interpreter.  The code is the same;
    [build_node_tree] takes one frame for each level of its recursion, and
    a call for which no frame is left raises [RecursionError], which nothing
    below [run] catches.  [process_node] enters one level for each level of
    the tree it is given, starting one frame above the builder, and calls
    the path normaliser from there: it takes no more frames than the
    builder took to make the tree, so it is left as it is. *)
Module Limited.
Section limited.
Variable py : Interpreter.

Section build_node_tree.
Variable node_map : gmap string nat.

(** [build_node_tree(current_node)] with room for [room] nested calls. *)
Fixpoint build_node_tree (room : nat) (current_node : nat) (st : BuildState)
    {struct room} : outcome (option nat * BuildState) :=
  match room with
  | O => Raise (RecursionError (recursion_message py))
  | S room' =>
      cur ←! deref current_node st;
      if decide (r_id cur ∈ visited st) then Ret (None, st)
      else
        let st := visited_add (r_id cur) st in
        let kept :=
          filter (λ child, is_Some (node_map !! c_id child)) (children cur) in
        let st := set_children current_node kept st in
        st ←! for_children node_map (build_node_tree room') current_node
                 (S (length kept)) 0 st;
        Ret (Some current_node, st)
  end.
End build_node_tree.

Definition _build_tree (nodes : list NodeRecord) (root_id : string)
    : outcome (option NodeRecord * list NodeRecord) :=
  let node_map := make_node_map nodes in
  match node_map !! root_id with
  | None => Ret (None, nodes)
  | Some root =>
      '(built, st) ←! build_node_tree node_map (recursion_limit py) root
                        {| visited := ∅; objects := nodes |};
      match built with
      | None => Ret (None, objects st)
      | Some ref => r ←! deref ref st; Ret (Some r, objects st)
      end
  end.

Section run.
Variable sql_first : string → exn + option Project.
Variable graph_rows : string → string → exn + list NodeRecord.

Definition _get_graph_data (project_id node_id : string) : traced (option NodeRecord) :=
  nodes ←? (of_sum (graph_rows project_id node_id), [GraphQuery project_id node_id]);
  match nodes with
  | [] => tret None
  | _ => ('(root, _) ←! _build_tree nodes node_id; Ret root, [])
  end.

Definition run_try (project_id node_id : string) : traced Response :=
  project ←? _get_project sql_first project_id;
  match project with
  | None =>
      tret (ErrorResponse
              ("Project with ID '" ++ project_id ++ "' not found in database"))
  | Some project =>
      graph_data ←? _get_graph_data project_id node_id;
      match graph_data with
      | None =>
          tret (ErrorResponse
                  ("No graph data found for node ID '" ++ node_id ++
                   "' in repo '" ++ project_id ++ "'"))
      | Some graph_data => tret (_process_graph_data graph_data project)
      end
  end.

Definition run (project_id node_id : string) : traced Response :=
  try_except (run_try project_id node_id) run_except.
End run.
End limited.
End Limited.

(** ** Vocabulary of the properties *)

(** The segment [k] places before the end of the path ([k = 0]: the last). *)
Definition segment_from_end (k : nat) (file_path : string) : option string :=
  reverse (split "/" file_path) !! k.

(** What the normaliser makes of a stored path [p]. *)
Inductive normalised (p : string) : string → Prop :=
  | normalised_unknown :
      p = "" ∨ p = "Unknown" → normalised p "Unknown"
  | normalised_anchor i :
      p ≠ "" → p ≠ "Unknown" →
      index "projects" (split "/" p) = Some i →
      normalised p (join "/" (drop (i + 2) (split "/" p)))
  | normalised_unchanged :
      p ≠ "" → p ≠ "Unknown" → "projects" ∉ split "/" p → normalised p p.

(** The part of a child dictionary the builder never writes: its scalar
    keys and its ["relationship"]. *)
Definition edge (c : ChildRef) : Fields * string := (c_fields c, relationship c).

(** Every id of [node_map] refers to a record object carrying that id. *)
Definition wf_map (node_map : gmap string nat) (st : BuildState) : Prop :=
  ∀ k i, node_map !! k = Some i →
    ∃ r, objects st !! i = Some r ∧ r_id r = k.

(** How a call of the builder may change the state: [visited] only grows;
    no record object is created, removed or given other scalar keys; a
    record object other than [writing] is touched only if its id enters
    [visited]; and every list of children keeps, in order, a part of the
    edges it had. *)
Record evolves (writing : option nat) (st st' : BuildState) : Prop := mkEvolves {
  ev_visited : visited st ⊆ visited st';
  ev_fields : r_fields <$> objects st' = r_fields <$> objects st;
  ev_frame : ∀ j r,
    objects st !! j = Some r → writing ≠ Some j →
    r_id r ∈ visited st ∨ r_id r ∉ visited st' →
    objects st' !! j = Some r;
  ev_edges : ∀ j r r',
    objects st !! j = Some r → objects st' !! j = Some r' →
    sublist (edge <$> children r') (edge <$> children r);
}.

(** What a call of [build_node_tree] on the record object of id [k]
    yields. *)
Definition call_spec (node_map : gmap string nat)
    (call : nat → BuildState → outcome (option nat * BuildState))
    (budget : nat) : Prop :=
  ∀ k ref st,
    wf_map node_map st → node_map !! k = Some ref →
    size (dom node_map ∖ visited st) < budget →
    ∃ built st',
      call ref st = Ret (built, st') ∧ evolves None st st' ∧
      ((built = None ∧ k ∈ visited st ∧ st' = st) ∨
       (built = Some ref ∧ (k ∉ visited st) ∧ k ∈ visited st')).

(** The rows of a chain root → child → grandchild, the child references
    carrying the scalar keys of the node they name. *)
Definition chain_rows (fr fc fg : Fields) (rel1 rel2 : string) : list NodeRecord :=
  [ mkNodeRecord fr [mkChildRef fc rel1 None];
    mkNodeRecord fc [mkChildRef fg rel2 None];
    mkNodeRecord fg [] ].

(** The rows of a diamond A → B, A → C, B → D, C → D. *)
Definition diamond_rows (fa fb fc fd : Fields) (ab ac bd cd : string) : list NodeRecord :=
  [ mkNodeRecord fa [mkChildRef fb ab None; mkChildRef fc ac None];
    mkNodeRecord fb [mkChildRef fd bd None];
    mkNodeRecord fc [mkChildRef fd cd None];
    mkNodeRecord fd [] ].

(** The scalar keys of the nodes of a built tree, parents before children
    and children in list order. *)
Fixpoint child_fields (c : ChildRef) : list Fields :=
  match c with
  | mkChildRef f _ kids =>
      f :: match kids with
           | None => []
           | Some l => concat (child_fields <$> l)
           end
  end.

Definition record_fields (r : NodeRecord) : list Fields :=
  r_fields r :: concat (child_fields <$> children r).

(** The ids of a built tree, in the same order. *)
Definition child_ids (c : ChildRef) : list string := f_id <$> child_fields c.
Definition tree_ids (r : NodeRecord) : list string := f_id <$> record_fields r.

(** The nodes of an output tree, in the same order. *)
Fixpoint tree_nodes (t : TreeNode) : list TreeNode :=
  match t with
  | mkTreeNode _ _ _ _ _ _ kids _ => t :: concat (tree_nodes <$> kids)
  end.


(** Whether the character [ch] occurs in [s]. *)
Fixpoint contains_char (ch : ascii) (s : string) : bool :=
  match s with
  | EmptyString => false
  | String c rest => Ascii.eqb c ch || contains_char ch rest
  end.

(** What the assembler is to make of each node of a built tree, parents
    before children: its scalar keys, the relationship label it gets
    ([None] at the root), and how many children it has. *)
Fixpoint child_entries (c : ChildRef) : list (Fields * option string * nat) :=
  match c with
  | mkChildRef f rel kids =>
      match kids with
      | None => [(f, Some rel, 0)]
      | Some l => (f, Some rel, length l) :: concat (child_entries <$> l)
      end
  end.

Definition record_entries (r : NodeRecord) : list (Fields * option string * nat) :=
  (r_fields r, None, length (children r)) :: concat (child_entries <$> children r).

(** The output node [t] is the assembled form of the entry [e]. *)
Definition assembled (e : Fields * option string * nat) (t : TreeNode) : Prop :=
  t_id t = f_id e.1.1 ∧ t_name t = f_name e.1.1 ∧ t_type t = f_type e.1.1 ∧
  t_file_path t = _get_relative_file_path (f_file_path e.1.1) ∧
  t_start_line t = f_start_line e.1.1 ∧ t_end_line t = f_end_line e.1.1 ∧
  t_relationship t = e.1.2 ∧ length (t_children t) = e.2.

(** A call of the builder keeps the property [I] of states, when made
    where [Pre] holds. *)
Definition inv_spec (node_map : gmap string nat)
    (I : BuildState → Prop) (Pre : nat → BuildState → Prop)
    (call : nat → BuildState → outcome (option nat * BuildState))
    (budget : nat) : Prop :=
  ∀ k ref st built st',
    wf_map node_map st → node_map !! k = Some ref →
    size (dom node_map ∖ visited st) < budget →
    Pre ref st → I st →
    call ref st = Ret (built, st') → I st'.

(** Every node of the subtree under the reference [c] is a node of
    [node_map]. *)
Definition resolved (node_map : gmap string nat) (c : ChildRef) : Prop :=
  Forall (λ f, is_Some (node_map !! f_id f)) (child_fields c).

(** Rows as the query of [_get_graph_data] makes them: the map collected
    for a child has no key ["children"]. *)
Definition fetched_rows (nodes : list NodeRecord) : Prop :=
  Forall (λ r, Forall (λ c, c_children c = None) (children r)) nodes.

(** The ids that child references lead to from [root_id], through the rows
    the index keeps and the references that name a row. *)
Inductive reachable (nodes : list NodeRecord) (root_id : string) : string → Prop :=
  | reachable_root : reachable nodes root_id root_id
  | reachable_child k i r c :
      reachable nodes root_id k →
      make_node_map nodes !! k = Some i → nodes !! i = Some r →
      c ∈ children r → is_Some (make_node_map nodes !! c_id c) →
      reachable nodes root_id (c_id c).







(** The ids of the references that were expanded, in the subtree under a
    reference and in the tree of a record. *)
Fixpoint expanded_ids (c : ChildRef) : list string :=
  match c with
  | mkChildRef f _ kids =>
      match kids with
      | None => []
      | Some l => f_id f :: concat (expanded_ids <$> l)
      end
  end.

Definition record_expanded_ids (r : NodeRecord) : list string :=
  concat (expanded_ids <$> children r).

(** A call that builds the record of id [k] expands, below it, only ids
    that it visits itself, each once, and never [k]. *)
Definition visit_once_spec (node_map : gmap string nat) (st0 : BuildState)
    (call : nat → BuildState → outcome (option nat * BuildState))
    (budget : nat) : Prop :=
  ∀ k ref st st' r',
    wf_map node_map st → node_map !! k = Some ref →
    size (dom node_map ∖ visited st) < budget →
    evolves None st0 st →
    call ref st = Ret (Some ref, st') → objects st' !! ref = Some r' →
    NoDup (record_expanded_ids r') ∧
    ∀ x, x ∈ record_expanded_ids r' → x ∈ visited st' ∧ (x ∉ visited st) ∧ x ≠ k.

(** Two states of the builder, over two indexes of the same rows in
    different orders, that agree: the same ids are visited, and an id leads
    to the same record in both. *)
Definition same_objects (nm1 nm2 : gmap string nat) (sa sb : BuildState) : Prop :=
  visited sa = visited sb ∧
  ∀ k i j, nm1 !! k = Some i → nm2 !! k = Some j →
    objects sa !! i = objects sb !! j.

(** [call2] over the second index does what [call1] does over the first. *)
Definition simulates (nm1 nm2 : gmap string nat)
    (call1 call2 : nat → BuildState → outcome (option nat * BuildState)) : Prop :=
  ∀ k i j sa sb built sa',
    nm1 !! k = Some i → nm2 !! k = Some j →
    wf_map nm1 sa → wf_map nm2 sb → same_objects nm1 nm2 sa sb →
    call1 i sa = Ret (built, sa') →
    ∃ sb',
      call2 j sb = Ret (match built with Some _ => Some j | None => None end, sb') ∧
      (built = None ∨ built = Some i) ∧
      wf_map nm1 sa' ∧ wf_map nm2 sb' ∧ same_objects nm1 nm2 sa' sb'.

(** The message of the unexpected-error response for the exception [e]. *)
Definition unexpected_error (e : exn) : string :=
  "An unexpected error occurred: " ++ exn_str e.




(** * Properties *)

(** ** Properties of the path normaliser *)

Lemma index_None (x : string) (parts : list string) :
  index x parts = None ↔ x ∉ parts.
Proof.
  induction parts as [|p ps IH]; simpl.
  - split; [intros _; apply not_elem_of_nil | done].
  - destruct (String.eqb_spec p x) as [->|Hne].
    + split; [done | intros H; destruct H; left].
    + rewrite not_elem_of_cons, <- IH.
      destruct (index x ps); simpl; split; (done || by intros [??]).
Qed.

Lemma index_Some_lt (x : string) (parts : list string) (i : nat) :
  index x parts = Some i → i < length parts ∧ parts !! i = Some x.
Proof.
  revert i; induction parts as [|p ps IH]; intros i; simpl; [done|].
  destruct (String.eqb_spec p x) as [->|Hne].
  - intros [= <-]. split; [lia | done].
  - destruct (index x ps) as [j|]; simpl; [|done].
    intros [= <-]. destruct (IH j eq_refl). split; [lia | done].
Qed.

(** Outside the two sentinel inputs the normaliser is the anchor search. *)
Lemma relative_file_path_unfold (file_path : string) :
  file_path ≠ "" → file_path ≠ "Unknown" →
  _get_relative_file_path file_path =
    match index "projects" (split "/" file_path) with
    | Some i => join "/" (drop (i + 2) (split "/" file_path))
    | None => file_path
    end.
Proof.
  intros H1 H2. unfold _get_relative_file_path.
  destruct (String.eqb_spec file_path ""); [done|].
  destruct (String.eqb_spec file_path "Unknown"); done.
Qed.

Lemma relative_file_path_normalised (p : string) :
  normalised p (_get_relative_file_path p).
Proof.
  destruct (decide (p = "")) as [->|H1]; [by constructor; left|].
  destruct (decide (p = "Unknown")) as [->|H2]; [by constructor; right|].
  rewrite relative_file_path_unfold by done.
  destruct (index "projects" (split "/" p)) as [i|] eqn:Hi.
  - by apply normalised_anchor.
  - apply normalised_unchanged; [done..|]. by apply index_None.
Qed.

(** C7. The path normaliser maps ["Unknown"] and the empty string to
    ["Unknown"], maps ["/home/user/projects/abc123/src/main.py"] to
    ["src/main.py"], and returns a path with no segment ["projects"], such
    as ["/var/data/other/file.py"], unchanged. *)
Theorem relative_file_path_cases :
  _get_relative_file_path "Unknown" = "Unknown" ∧
  _get_relative_file_path "" = "Unknown" ∧
  _get_relative_file_path "/home/user/projects/abc123/src/main.py" = "src/main.py" ∧
  _get_relative_file_path "/var/data/other/file.py" = "/var/data/other/file.py" ∧
  ∀ file_path : string,
    file_path ≠ "" → "projects" ∉ split "/" file_path →
    _get_relative_file_path file_path = file_path.
Proof.
  repeat split; try reflexivity.
  intros p Hne Hno.
  destruct (decide (p = "Unknown")) as [->|Hu]; [reflexivity|].
  rewrite relative_file_path_unfold by done.
  apply index_None in Hno. by rewrite Hno.
Qed.

Lemma relative_file_path_cases_witness :
  _get_relative_file_path "/srv/checkout/lib/util.py" = "/srv/checkout/lib/util.py".
Proof.
  apply relative_file_path_cases.
  - discriminate.
  - apply index_None. reflexivity.
Defined.

(** C10, as stated, fails: a path whose last segment is ["projects"] but
    which has an earlier segment ["projects"] is cut after the earlier
    one. *)
Lemma anchor_last_not_empty :
  ¬ (∀ file_path : string,
       file_path ≠ "" → file_path ≠ "Unknown" →
       segment_from_end 0 file_path = Some "projects" ∨
       segment_from_end 1 file_path = Some "projects" →
       _get_relative_file_path file_path = "").
Proof.
  intros H. specialize (H "/projects/x/y/projects").
  discriminate H; [discriminate.. | left; reflexivity].
Qed.

(** C10, amended. For every non-empty path other than ["Unknown"] whose
    first segment ["projects"] is its last or second-to-last segment, the
    path normaliser returns the empty string, which is neither ["Unknown"]
    nor the path given. *)
Theorem anchor_at_end_empty (file_path : string) (i : nat) :
  file_path ≠ "" → file_path ≠ "Unknown" →
  index "projects" (split "/" file_path) = Some i →
  i + 1 = length (split "/" file_path) ∨ i + 2 = length (split "/" file_path) →
  _get_relative_file_path file_path = "" ∧
  _get_relative_file_path file_path ≠ "Unknown" ∧
  _get_relative_file_path file_path ≠ file_path.
Proof.
  intros H1 H2 Hi Hlen.
  assert (Hout : _get_relative_file_path file_path = "").
  { rewrite relative_file_path_unfold, Hi by done.
    rewrite drop_ge; [done | lia]. }
  rewrite Hout. split; [done | split; [discriminate | congruence]].
Qed.

Lemma anchor_at_end_empty_witness :
  _get_relative_file_path "/home/user/projects/repo" = "" ∧
  _get_relative_file_path "/home/user/projects/repo" ≠ "Unknown" ∧
  _get_relative_file_path "/home/user/projects/repo" ≠ "/home/user/projects/repo".
Proof.
  apply (anchor_at_end_empty "/home/user/projects/repo" 3).
  - discriminate.
  - discriminate.
  - reflexivity.
  - right. reflexivity.
Defined.

(** ** Equality of child dictionaries and [list.remove] *)

Lemma ChildRef_nested_ind (P : ChildRef → Prop) :
  (∀ f rel, P (mkChildRef f rel None)) →
  (∀ f rel l, Forall P l → P (mkChildRef f rel (Some l))) →
  ∀ c, P c.
Proof.
  intros Hnone Hsome. fix IH 1. intros [f rel [l|]]; [|apply Hnone].
  apply Hsome. induction l as [|x xs IHl]; constructor; [apply IH | exact IHl].
Qed.

Lemma child_eqb_spec (a b : ChildRef) : child_eqb a b = true ↔ a = b.
Proof.
  revert b. induction a as [f rel | f rel l IH] using ChildRef_nested_ind;
    intros [fb rb [lb|]]; simpl;
    rewrite ?andb_true_iff, ?bool_decide_eq_true.
  - split; [intros [[_ _] [=]] | intros [=]].
  - split; [intros [[-> ->] _]; done | intros [= -> ->]; done].
  - assert (Hl :
      (fix all_eqb (la lb : list ChildRef) {struct la} : bool :=
         match la, lb with
         | [], [] => true
         | x :: xs, y :: ys => child_eqb x y && all_eqb xs ys
         | _, _ => false
         end) l lb = true ↔ l = lb).
    { revert lb. induction IH as [|x xs Hx _ IHxs]; intros [|y ys]; try done.
      rewrite andb_true_iff, Hx, IHxs. split; [intros [-> ->]; done | intros [= -> ->]; done]. }
    rewrite Hl. split; [intros [[-> ->] ->]; done | intros [= -> -> ->]; done].
  - split; [intros [[_ _] [=]] | intros [=]].
Qed.

Lemma child_eqb_refl (c : ChildRef) : child_eqb c c = true.
Proof. by apply child_eqb_spec. Qed.

Lemma list_remove_elem (x : ChildRef) (l : list ChildRef) :
  x ∈ l → is_Some (list_remove x l).
Proof.
  induction l as [|y ys IH]; [by intros ?%elem_of_nil|].
  intros [->|Hin]%elem_of_cons; simpl.
  - rewrite child_eqb_refl. eauto.
  - destruct (child_eqb y x); [eauto|].
    destruct (IH Hin) as [l' ->]. simpl. eauto.
Qed.

Lemma list_remove_Some (x : ChildRef) (l l' : list ChildRef) :
  list_remove x l = Some l' →
  sublist l' l ∧ length l = S (length l').
Proof.
  revert l'. induction l as [|y ys IH]; intros l'; simpl; [done|].
  destruct (child_eqb y x).
  - intros [= <-]. split; [by apply sublist_cons | done].
  - destruct (list_remove x ys) as [l0|]; simpl; [|done].
    intros [= <-]. destruct (IH l0 eq_refl) as [Hs Hl].
    split; [by apply sublist_skip | simpl; lia].
Qed.

(** ** The index [node_map] *)

Lemma index_nodes_lookup (i : nat) (rest : list NodeRecord)
    (m : gmap string nat) (k : string) (j : nat) :
  index_nodes i rest m !! k = Some j →
  m !! k = Some j ∨
  ∃ r, rest !! (j - i) = Some r ∧ r_id r = k ∧ i ≤ j.
Proof.
  revert i m. induction rest as [|node rest IH]; intros i m; simpl; [by left|].
  intros [Hm | (r & Hr & Hk & Hle)]%IH.
  - destruct (decide (r_id node = k)) as [<-|Hne].
    + rewrite lookup_insert_eq in Hm. injection Hm as <-.
      right. exists node. by rewrite Nat.sub_diag.
    + rewrite lookup_insert_ne in Hm by done. by left.
  - right. exists r. replace (j - i) with (S (j - S i)) by lia.
    split; [done | split; [done | lia]].
Qed.

Lemma index_nodes_is_Some (i : nat) (rest : list NodeRecord)
    (m : gmap string nat) (k : string) :
  is_Some (index_nodes i rest m !! k) ↔ is_Some (m !! k) ∨ k ∈ r_id <$> rest.
Proof.
  revert i m. induction rest as [|node rest IH]; intros i m; simpl.
  - rewrite elem_of_nil. tauto.
  - rewrite IH, elem_of_cons, lookup_insert_is_Some. 
    destruct (decide (r_id node = k)); intuition congruence.
Qed.

Lemma make_node_map_is_Some (nodes : list NodeRecord) (k : string) :
  is_Some (make_node_map nodes !! k) ↔ k ∈ r_id <$> nodes.
Proof.
  unfold make_node_map. rewrite index_nodes_is_Some, lookup_empty.
  split; [intros [[? [=]]|?]; done | by right].
Qed.

Lemma make_node_map_wf (nodes : list NodeRecord) (V : gset string) :
  wf_map (make_node_map nodes) {| visited := V; objects := nodes |}.
Proof.
  intros k j [Hm|(r & Hr & Hk & _)]%index_nodes_lookup; [by rewrite lookup_empty in Hm|].
  rewrite Nat.sub_0_r in Hr. by exists r.
Qed.

(** ** How the builder changes the state *)

Lemma evolves_refl (w : option nat) (st : BuildState) : evolves w st st.
Proof.
  split; [done | done | auto |].
  intros j r r' H1 H2. by simplify_eq.
Qed.

Lemma evolves_lookup (w : option nat) (st st' : BuildState) (j : nat) (r : NodeRecord) :
  evolves w st st' → objects st !! j = Some r →
  ∃ r', objects st' !! j = Some r' ∧ r_fields r' = r_fields r.
Proof.
  intros Hev Hj.
  assert (Hf : (r_fields <$> objects st') !! j = Some (r_fields r)).
  { rewrite (ev_fields _ _ _ Hev), list_lookup_fmap, Hj. done. }
  rewrite list_lookup_fmap in Hf.
  destruct (objects st' !! j) as [r'|]; simplify_eq/=. eauto.
Qed.

Lemma evolves_lookup_inv (w : option nat) (st st' : BuildState) (j : nat) (r' : NodeRecord) :
  evolves w st st' → objects st' !! j = Some r' →
  ∃ r, objects st !! j = Some r ∧ r_fields r' = r_fields r.
Proof.
  intros Hev Hj.
  assert (Hf : (r_fields <$> objects st) !! j = Some (r_fields r')).
  { rewrite <- (ev_fields _ _ _ Hev), list_lookup_fmap, Hj. done. }
  rewrite list_lookup_fmap in Hf.
  destruct (objects st !! j) as [r|]; simplify_eq/=. eauto.
Qed.

Lemma evolves_trans (w : option nat) (st1 st2 st3 : BuildState) :
  evolves w st1 st2 → evolves w st2 st3 → evolves w st1 st3.
Proof.
  intros H12 H23. split.
  - etrans; [apply H12 | apply H23].
  - rewrite (ev_fields _ _ _ H23). apply H12.
  - intros j r Hj Hw Hid.
    apply (ev_frame _ _ _ H23); [|done|].
    + apply (ev_frame _ _ _ H12); [done..|].
      destruct Hid as [?|Hid]; [by left|right].
      intros ?. apply Hid. by apply (ev_visited _ _ _ H23).
    + destruct Hid as [?|?]; [left|by right]. by apply (ev_visited _ _ _ H12).
  - intros j r r3 Hj H3.
    destruct (evolves_lookup _ _ _ _ _ H12 Hj) as (r2 & H2 & _).
    etrans; [by eapply (ev_edges _ _ _ H23) | by eapply (ev_edges _ _ _ H12)].
Qed.

Lemma evolves_weaken (w : option nat) (st st' : BuildState) :
  evolves None st st' → evolves w st st'.
Proof.
  intros [H1 H2 H3 H4]. split; [done..| |done].
  intros j r Hj _ Hid. by apply H3.
Qed.

Lemma evolves_wf (node_map : gmap string nat) (w : option nat) (st st' : BuildState) :
  evolves w st st' → wf_map node_map st → wf_map node_map st'.
Proof.
  intros Hev Hwf k i Hk. destruct (Hwf k i Hk) as (r & Hr & Hid).
  destruct (evolves_lookup _ _ _ _ _ Hev Hr) as (r' & Hr' & Hf).
  exists r'. split; [done|]. unfold r_id. by rewrite Hf.
Qed.

Lemma evolves_visited_add (w : option nat) (k : string) (st : BuildState) :
  evolves w st (visited_add k st).
Proof.
  split; simpl; [set_solver | done | auto |].
  intros j r r' H1 H2. by simplify_eq.
Qed.

Lemma evolves_set_children (ref : nat) (cur : NodeRecord) (l : list ChildRef)
    (st : BuildState) :
  objects st !! ref = Some cur →
  sublist (edge <$> l) (edge <$> children cur) →
  evolves (Some ref) st (set_children ref l st).
Proof.
  intros Hcur Hsub. split; simpl.
  - done.
  - apply list_eq; intros j. rewrite !list_lookup_fmap.
    destruct (decide (ref = j)) as [<-|Hne].
    + rewrite list_lookup_alter_eq, Hcur. done.
    + by rewrite list_lookup_alter_ne.
  - intros j r Hj Hw _. rewrite list_lookup_alter_ne; [done | congruence].
  - intros j r r' Hj. destruct (decide (ref = j)) as [<-|Hne].
    + rewrite list_lookup_alter_eq, Hj. intros [= <-]. simpl.
      rewrite Hcur in Hj. by injection Hj as <-.
    + rewrite list_lookup_alter_ne, Hj by done. by intros [= <-].
Qed.

Lemma set_children_lookup (ref : nat) (cur : NodeRecord) (l : list ChildRef)
    (st : BuildState) :
  objects st !! ref = Some cur →
  objects (set_children ref l st) !! ref =
    Some {| r_fields := r_fields cur; children := l |}.
Proof. intros Hcur. simpl. by rewrite list_lookup_alter_eq, Hcur. Qed.

Lemma edge_alter_with_children (kids : list ChildRef) (it : nat) (l : list ChildRef) :
  edge <$> alter (with_children kids) it l = edge <$> l.
Proof.
  apply list_eq; intros j. rewrite !list_lookup_fmap.
  destruct (decide (it = j)) as [<-|Hne].
  - rewrite list_lookup_alter_eq. by destruct (l !! it).
  - by rewrite list_lookup_alter_ne.
Qed.

Lemma unvisited_shrinks (node_map : gmap string nat) (V : gset string) (k : string) :
  is_Some (node_map !! k) → k ∉ V →
  size (dom node_map ∖ ({[k]} ∪ V)) < size (dom node_map ∖ V).
Proof.
  intros Hk HV. apply subset_size. apply elem_of_dom in Hk. set_solver.
Qed.

Lemma unvisited_mono (node_map : gmap string nat) (V V' : gset string) :
  V ⊆ V' → size (dom node_map ∖ V') ≤ size (dom node_map ∖ V).
Proof. intros HV. apply subseteq_size. set_solver. Qed.

Lemma Forall_sublist {A} (P : A → Prop) (l1 l2 : list A) :
  sublist l1 l2 → Forall P l2 → Forall P l1.
Proof.
  induction 1 as [|x l1 l2 _ IH|x l1 l2 _ IH]; [done|..];
    intros [Hx Hl]%Forall_cons; [constructor|]; auto.
Qed.

(** ** The builder returns *)

Section builder_total.
Variable node_map : gmap string nat.

Lemma for_children_returns call budget k current_node :
  call_spec node_map call budget →
  node_map !! k = Some current_node →
  ∀ n it st cur,
    wf_map node_map st → k ∈ visited st →
    size (dom node_map ∖ visited st) < budget →
    objects st !! current_node = Some cur →
    Forall (λ c, is_Some (node_map !! c_id c)) (children cur) →
    length (children cur) - it < n →
    ∃ st', for_children node_map call current_node n it st = Ret st' ∧
           evolves (Some current_node) st st'.
Proof.
  intros Hcall Hk. induction n as [|n IH]; intros it st cur Hwf Hvis Hsize Hcur Hall Hn; [lia|].
  simpl. unfold deref at 1. rewrite Hcur. simpl.
  destruct (children cur !! it) as [child|] eqn:Hchild;
    [|eexists; split; [done | apply evolves_refl]].
  assert (Hmem : child ∈ children cur) by (apply list_elem_of_lookup; eauto).
  assert (Hlt : it < length (children cur)) by (by eapply lookup_lt_Some).
  destruct (proj1 (Forall_forall _ _) Hall child Hmem) as [child_node Hcn].
  rewrite Hcn.
  destruct (Hcall _ _ _ Hwf Hcn Hsize) as (built & st1 & -> & Hev1 & Hbuilt). simpl.
  assert (Hcur1 : objects st1 !! current_node = Some cur).
  { apply (ev_frame _ _ _ Hev1); [done | done | left].
    destruct (Hwf _ _ Hk) as (r & Hr & <-). by simplify_eq. }
  assert (Hwf1 : wf_map node_map st1) by (by eapply evolves_wf).
  assert (Hvis1 : k ∈ visited st1) by (by apply (ev_visited _ _ _ Hev1)).
  assert (Hsize1 : size (dom node_map ∖ visited st1) < budget).
  { eapply Nat.le_lt_trans; [apply unvisited_mono, (ev_visited _ _ _ Hev1) | done]. }
  unfold deref at 1. rewrite Hcur1. simpl.
  destruct Hbuilt as [(-> & _ & _) | (-> & _ & _)].
  - (* the child was visited before: [remove] *)
    destruct (list_remove_elem _ _ Hmem) as [l Hl]. rewrite Hl.
    destruct (list_remove_Some _ _ _ Hl) as [Hsub Hlen].
    pose proof (evolves_set_children current_node cur l st1 Hcur1
                  (fmap_sublist edge _ _ Hsub)) as Hev2.
    edestruct (IH (S it) (set_children current_node l st1)) as (st' & Hrun & Hev3).
    + by eapply evolves_wf.
    + done.
    + done.
    + by apply set_children_lookup.
    + simpl. by eapply Forall_sublist.
    + simpl. lia.
    + exists st'. split; [done|].
      eapply evolves_trans; [apply evolves_weaken, Hev1|].
      eapply evolves_trans; [apply Hev2 | apply Hev3].
  - (* the child was built: its children are spliced in *)
    destruct (Hwf1 _ _ Hcn) as (b & Hb & _).
    unfold deref at 1. rewrite Hb. simpl.
    set (l := alter (with_children (children b)) it (children cur)).
    assert (Hedge : edge <$> l = edge <$> children cur)
      by apply edge_alter_with_children.
    pose proof (evolves_set_children current_node cur l st1 Hcur1) as Hev2.
    rewrite Hedge in Hev2. specialize (Hev2 (reflexivity _)).
    edestruct (IH (S it) (set_children current_node l st1)) as (st' & Hrun & Hev3).
    + by eapply evolves_wf.
    + done.
    + done.
    + by apply set_children_lookup.
    + simpl. unfold l. apply Forall_alter; [done|]. intros c _ Hc. exact Hc.
    + simpl. unfold l. rewrite length_alter. lia.
    + exists st'. split; [done|].
      eapply evolves_trans; [apply evolves_weaken, Hev1|].
      eapply evolves_trans; [apply Hev2 | apply Hev3].
Qed.

Lemma build_node_tree_unfold (fuel : nat) (current_node : nat) (st : BuildState) :
  build_node_tree node_map (S fuel) current_node st =
    (cur ←! deref current_node st;
     if decide (r_id cur ∈ visited st) then Ret (None, st)
     else
       let st := visited_add (r_id cur) st in
       let kept :=
         filter (λ child, is_Some (node_map !! c_id child)) (children cur) in
       let st := set_children current_node kept st in
       st ←! for_children node_map (build_node_tree node_map fuel) current_node
                (S (length kept)) 0 st;
       Ret (Some current_node, st)).
Proof. reflexivity. Qed.

Lemma build_node_tree_returns (fuel : nat) :
  call_spec node_map (build_node_tree node_map fuel) fuel.
Proof.
  induction fuel as [|fuel IH]; intros k ref st Hwf Hk Hsize; [lia|].
  destruct (Hwf _ _ Hk) as (cur & Hcur & Hid0).
  rewrite build_node_tree_unfold. unfold deref at 1. rewrite Hcur.
  cbn [obind]. rewrite Hid0.
  destruct (decide (k ∈ visited st)) as [Hin|Hnot].
  { exists None, st. split; [done|]. split; [apply evolves_refl | by left]. }
  set (kept := filter (λ child, is_Some (node_map !! c_id child)) (children cur)).
  set (st0 := visited_add k st).
  set (st1 := set_children ref kept st0).
  assert (Hcur0 : objects st0 !! ref = Some cur) by done.
  assert (Hkept : sublist kept (children cur)) by apply sublist_filter.
  pose proof (evolves_set_children ref cur kept st0 Hcur0
                (fmap_sublist edge _ _ Hkept)) as Hev1.
  fold st1 in Hev1.
  assert (Hev01 : evolves (Some ref) st st1).
  { eapply evolves_trans; [apply evolves_visited_add | exact Hev1]. }
  assert (Hsize1 : size (dom node_map ∖ visited st1) < fuel).
  { pose proof (unvisited_shrinks node_map (visited st) k (mk_is_Some _ _ Hk) Hnot).
    simpl. lia. }
  edestruct (for_children_returns (build_node_tree node_map fuel) fuel k ref IH Hk
               (S (length kept)) 0 st1) as (st' & Hrun & Hev2).
  - by eapply evolves_wf.
  - simpl. set_solver.
  - done.
  - by apply set_children_lookup.
  - simpl. apply Forall_forall. intros c Hc.
    by apply (list_elem_of_filter (λ child, is_Some (node_map !! c_id child))) in Hc as [? _].
  - simpl. lia.
  - cbv zeta. fold kept. fold st0. fold st1. rewrite Hrun. cbn [obind].
    exists (Some ref), st'. split; [done|].
    assert (Hev : evolves (Some ref) st st') by (by eapply evolves_trans).
    assert (Hk' : k ∈ visited st').
    { apply (ev_visited _ _ _ Hev2). simpl. set_solver. }
    split; [|right; done].
    destruct Hev as [H1 H2 H3 H4]. split; [done..| |done].
    intros j r Hj _ Hid. apply H3; [done| |done].
    intros [= <-]. rewrite Hcur in Hj. injection Hj as <-.
    rewrite Hid0 in Hid. by destruct Hid.
Qed.
End builder_total.

(** ** [_build_tree] *)

Lemma build_tree_returns (nodes : list NodeRecord) (root_id : string) :
  ((root_id ∉ r_id <$> nodes) ∧ _build_tree nodes root_id = Ret (None, nodes)) ∨
  (∃ root tree st',
     make_node_map nodes !! root_id = Some root ∧
     _build_tree nodes root_id = Ret (Some tree, objects st') ∧
     evolves None {| visited := ∅; objects := nodes |} st' ∧
     objects st' !! root = Some tree ∧ r_id tree = root_id).
Proof.
  unfold _build_tree.
  destruct (make_node_map nodes !! root_id) as [root|] eqn:Hroot.
  - right.
    pose proof (make_node_map_wf nodes ∅) as Hwf.
    destruct (build_node_tree_returns (make_node_map nodes)
                (S (size (make_node_map nodes))) root_id root
                {| visited := ∅; objects := nodes |} Hwf Hroot)
      as (built & st' & -> & Hev & Hbuilt).
    { simpl. rewrite <- size_dom. apply Nat.lt_succ_r, subseteq_size. set_solver. }
    destruct Hbuilt as [(_ & Hin & _) | (-> & _ & _)]; [by apply not_elem_of_empty in Hin|].
    destruct (evolves_wf _ _ _ _ Hev Hwf _ _ Hroot) as (tree & Htree & Hid).
    exists root, tree, st'. cbn [obind]. unfold deref. rewrite Htree. done.
  - left. split; [|done].
    rewrite <- make_node_map_is_Some, Hroot. by intros [? [=]].
Qed.

(** ** The index of rows with distinct ids *)

Lemma make_node_map_lookup (nodes : list NodeRecord) (i : nat) (r : NodeRecord) :
  NoDup (r_id <$> nodes) → nodes !! i = Some r →
  make_node_map nodes !! r_id r = Some i.
Proof.
  intros Hnd Hi.
  assert (Hin : r_id r ∈ r_id <$> nodes).
  { apply list_elem_of_fmap. exists r. split; [done|]. by eapply list_elem_of_lookup_2. }
  apply make_node_map_is_Some in Hin as [j Hj]. rewrite Hj. f_equal.
  destruct (make_node_map_wf nodes ∅ _ _ Hj) as (r' & Hr' & Hid). simpl in Hr'.
  eapply NoDup_lookup; [exact Hnd | |].
  - rewrite list_lookup_fmap, Hr'. simpl. by rewrite Hid.
  - by rewrite list_lookup_fmap, Hi.
Qed.

Lemma make_node_map_size (nodes : list NodeRecord) :
  NoDup (r_id <$> nodes) → size (make_node_map nodes) = length nodes.
Proof.
  intros Hnd. rewrite <- size_dom.
  assert (Hdom : dom (make_node_map nodes) = list_to_set (r_id <$> nodes)).
  { apply set_eq. intros k.
    rewrite elem_of_dom, make_node_map_is_Some, elem_of_list_to_set. done. }
  rewrite Hdom, size_list_to_set, length_fmap by done. done.
Qed.

(** Rows given in any order: each row of [rows] is a record object of
    [nodes], and the index leads from its id to it. *)
Lemma permuted_rows_lookup (nodes rows : list NodeRecord) (r : NodeRecord) :
  nodes ≡ₚ rows → NoDup (r_id <$> rows) → r ∈ rows →
  ∃ i, nodes !! i = Some r ∧ make_node_map nodes !! r_id r = Some i.
Proof.
  intros Hperm Hnd Hr. rewrite <- Hperm in Hr, Hnd.
  apply list_elem_of_lookup in Hr as [i Hi].
  exists i. split; [done|]. by apply make_node_map_lookup.
Qed.

(** ** The recursion limit

    [Limited.build_node_tree] and [build_node_tree] are the same code; they
    differ where the depth allowed is used up.  So the limited builder
    either raises [RecursionError] or does what the builder does with room
    enough, and it has room enough when the rows are fewer than the calls
    the interpreter allows. *)

Section limited_builder.
Variable py : Interpreter.
Variable node_map : gmap string nat.

Lemma for_children_agree call1 call2 :
  (∀ ref st,
     call1 ref st = Raise (RecursionError (recursion_message py)) ∨
     call2 ref st = Stuck ∨ call1 ref st = call2 ref st) →
  ∀ n current_node it st,
    for_children node_map call1 current_node n it st =
      Raise (RecursionError (recursion_message py)) ∨
    for_children node_map call2 current_node n it st = Stuck ∨
    for_children node_map call1 current_node n it st =
      for_children node_map call2 current_node n it st.
Proof.
  intros Hcall. induction n as [|n IH]; intros current_node it st; [by right; left|].
  cbn [for_children].
  destruct (deref current_node st) as [cur| |]; cbn [obind]; [|by right; right..].
  destruct (children cur !! it) as [child|]; [|by right; right].
  destruct (node_map !! c_id child) as [child_node|]; [|by right; right].
  destruct (Hcall child_node st) as [-> | [-> | ->]]; [by left | by right; left |].
  destruct (call2 child_node st) as [[built st1]| |]; cbn [obind]; [|by right; right..].
  destruct (deref current_node st1) as [cur1| |]; cbn [obind]; [|by right; right..].
  destruct built as [built|].
  - destruct (deref built st1) as [b| |]; cbn [obind]; [apply IH | by right; right..].
  - destruct (list_remove child (children cur1)) as [l|]; [apply IH | by right; right].
Qed.

Lemma limited_agrees (room fuel : nat) (ref : nat) (st : BuildState) :
  Limited.build_node_tree py node_map room ref st =
    Raise (RecursionError (recursion_message py)) ∨
  build_node_tree node_map fuel ref st = Stuck ∨
  Limited.build_node_tree py node_map room ref st =
    build_node_tree node_map fuel ref st.
Proof.
  revert fuel ref st. induction room as [|room IH]; intros fuel ref st; [by left|].
  destruct fuel as [|fuel]; [by right; left|].
  cbn [Limited.build_node_tree build_node_tree].
  destruct (deref ref st) as [cur| |]; cbn [obind]; [|by right; right..].
  destruct (decide (r_id cur ∈ visited st)); [by right; right|].
  cbv zeta.
  destruct (for_children_agree (Limited.build_node_tree py node_map room)
              (build_node_tree node_map fuel) (IH fuel)
              (S (length (filter (λ child, is_Some (node_map !! c_id child)) (children cur))))
              ref 0
              (set_children ref
                 (filter (λ child, is_Some (node_map !! c_id child)) (children cur))
                 (visited_add (r_id cur) st)))
    as [-> | [-> | ->]]; [by left | by right; left | by right; right].
Qed.

Lemma for_children_of_returned call1 call2 :
  (∀ ref st r, call2 ref st = Ret r → call1 ref st = Ret r) →
  ∀ n current_node it st st',
    for_children node_map call2 current_node n it st = Ret st' →
    for_children node_map call1 current_node n it st = Ret st'.
Proof.
  intros Hcall. induction n as [|n IH]; intros current_node it st st'; [done|].
  cbn [for_children].
  destruct (deref current_node st) as [cur| |]; cbn [obind]; [|done..].
  destruct (children cur !! it) as [child|]; [|done].
  destruct (node_map !! c_id child) as [child_node|]; [|done].
  destruct (call2 child_node st) as [[built st1]| |] eqn:Hc; cbn [obind]; [|done..].
  rewrite (Hcall _ _ _ Hc). cbn [obind].
  destruct (deref current_node st1) as [cur1| |]; cbn [obind]; [|done..].
  destruct built as [built|].
  - destruct (deref built st1) as [b| |]; cbn [obind]; [apply IH | done..].
  - destruct (list_remove child (children cur1)) as [l|]; [apply IH | done].
Qed.

Lemma limited_of_returned (room : nat) (ref : nat) (st : BuildState) r :
  build_node_tree node_map room ref st = Ret r →
  Limited.build_node_tree py node_map room ref st = Ret r.
Proof.
  revert ref st r. induction room as [|room IH]; intros ref st r; [done|].
  cbn [Limited.build_node_tree build_node_tree].
  destruct (deref ref st) as [cur| |]; cbn [obind]; [|done..].
  destruct (decide (r_id cur ∈ visited st)); [done|].
  cbv zeta.
  destruct (for_children node_map (build_node_tree node_map room) ref _ 0 _)
    as [st'| |] eqn:Hloop; cbn [obind]; [|done..].
  by rewrite (for_children_of_returned (Limited.build_node_tree py node_map room)
                (build_node_tree node_map room) IH _ _ _ _ _ Hloop).
Qed.
End limited_builder.

Lemma list_to_set_size_le (l : list string) :
  size (list_to_set l : gset string) ≤ length l.
Proof.
  induction l as [|k l IH].
  - by rewrite list_to_set_nil, size_empty.
  - rewrite list_to_set_cons, size_union_alt, size_singleton.
    pose proof (subseteq_size (list_to_set l ∖ {[k]} : gset string) (list_to_set l)) as Hle.
    cbn [length]. specialize (Hle ltac:(set_solver)). lia.
Qed.

Lemma make_node_map_size_le (nodes : list NodeRecord) :
  size (make_node_map nodes) ≤ length nodes.
Proof.
  rewrite <- size_dom.
  assert (Hdom : dom (make_node_map nodes) = list_to_set (r_id <$> nodes)).
  { apply set_eq. intros k.
    rewrite elem_of_dom, make_node_map_is_Some, elem_of_list_to_set. done. }
  rewrite Hdom, <- (length_fmap r_id nodes). apply list_to_set_size_le.
Qed.

(** The limited builder raises [RecursionError], or it does what
    [_build_tree] does. *)
Lemma limited_build_tree (py : Interpreter) (nodes : list NodeRecord) (root_id : string) :
  Limited._build_tree py nodes root_id = Raise (RecursionError (recursion_message py)) ∨
  Limited._build_tree py nodes root_id = _build_tree nodes root_id.
Proof.
  unfold Limited._build_tree, _build_tree.
  destruct (make_node_map nodes !! root_id) as [root|] eqn:Hroot; [|by right].
  pose proof (make_node_map_wf nodes ∅) as Hwf.
  destruct (build_node_tree_returns (make_node_map nodes)
              (S (size (make_node_map nodes))) root_id root
              {| visited := ∅; objects := nodes |} Hwf Hroot)
    as (built & st' & Hrun & _).
  { simpl. rewrite <- size_dom. apply Nat.lt_succ_r, subseteq_size. set_solver. }
  destruct (limited_agrees py (make_node_map nodes) (recursion_limit py)
              (S (size (make_node_map nodes))) root {| visited := ∅; objects := nodes |})
    as [-> | [Hstuck | ->]]; [by left | by rewrite Hrun in Hstuck | by right].
Qed.

(** With fewer rows than the interpreter allows nested calls, the limit
    is not reached. *)
Lemma limited_build_tree_room (py : Interpreter) (nodes : list NodeRecord)
    (root_id : string) :
  length nodes < recursion_limit py →
  Limited._build_tree py nodes root_id = _build_tree nodes root_id.
Proof.
  intros Hroom.
  destruct (limited_build_tree py nodes root_id) as [Hraise | Heq]; [|done].
  unfold Limited._build_tree in Hraise.
  destruct (make_node_map nodes !! root_id) as [root|] eqn:Hroot; [|done].
  pose proof (make_node_map_wf nodes ∅) as Hwf.
  destruct (build_node_tree_returns (make_node_map nodes)
              (recursion_limit py) root_id root
              {| visited := ∅; objects := nodes |} Hwf Hroot)
    as (built & st' & Hrun & _).
  { simpl. pose proof (make_node_map_size_le nodes).
    rewrite <- size_dom in H.
    assert (size (dom (make_node_map nodes) ∖ (∅ : gset string)) ≤
            size (dom (make_node_map nodes))) by (apply subseteq_size; set_solver).
    lia. }
  rewrite (limited_of_returned py _ _ _ _ _ Hrun) in Hraise. cbn [obind] in Hraise.
  destruct built as [ref|]; [|done].
  unfold deref in Hraise. by destruct (objects st' !! ref).
Qed.

Lemma limited_get_graph_data_room (py : Interpreter)
    (graph_rows : string → string → exn + list NodeRecord)
    (project_id node_id : string) :
  (∀ nodes, graph_rows project_id node_id = inr nodes →
            length nodes < recursion_limit py) →
  Limited._get_graph_data py graph_rows project_id node_id =
    _get_graph_data graph_rows project_id node_id.
Proof.
  intros Hroom. unfold Limited._get_graph_data, _get_graph_data.
  destruct (graph_rows project_id node_id) as [e|nodes]; [done|].
  cbn [of_sum tbind]. destruct nodes as [|node rest]; [done|].
  by rewrite limited_build_tree_room by (by apply Hroom).
Qed.

(** [Limited.run] is [run] when the rows fetched are fewer than the
    interpreter allows nested calls. *)
Lemma limited_run_room (py : Interpreter) (sql_first : string → exn + option Project)
    (graph_rows : string → string → exn + list NodeRecord)
    (project_id node_id : string) :
  (∀ nodes, graph_rows project_id node_id = inr nodes →
            length nodes < recursion_limit py) →
  Limited.run py sql_first graph_rows project_id node_id =
    run sql_first graph_rows project_id node_id.
Proof.
  intros Hroom. unfold Limited.run, run, Limited.run_try, run_try.
  by rewrite limited_get_graph_data_room.
Qed.

(** [Limited.run] is [run], or the builder goes beyond the limit and the
    handler of [run] turns its [RecursionError] into the response. *)
Lemma limited_run_cases (py : Interpreter) (sql_first : string → exn + option Project)
    (graph_rows : string → string → exn + list NodeRecord)
    (project_id node_id : string) :
  Limited.run py sql_first graph_rows project_id node_id =
    run sql_first graph_rows project_id node_id ∨
  ∃ project nodes,
    sql_first project_id = inr (Some project) ∧
    graph_rows project_id node_id = inr nodes ∧
    recursion_limit py ≤ length nodes ∧
    Limited._build_tree py nodes node_id =
      Raise (RecursionError (recursion_message py)) ∧
    Limited.run py sql_first graph_rows project_id node_id =
      (Ret (ErrorResponse (unexpected_error (RecursionError (recursion_message py)))),
       [SqlQuery project_id; GraphQuery project_id node_id;
        LogException (unexpected_error (RecursionError (recursion_message py)))]).
Proof.
  destruct (graph_rows project_id node_id) as [e|nodes] eqn:Hrows.
  { left. apply limited_run_room. intros nodes. by rewrite Hrows. }
  destruct (decide (length nodes < recursion_limit py)) as [Hroom|Hlen].
  { left. apply limited_run_room. intros nodes'. rewrite Hrows. by intros [= <-]. }
  apply Nat.nlt_ge in Hlen.
  unfold Limited.run, run, Limited.run_try, run_try, _get_project.
  destruct (sql_first project_id) as [e|[project|]]; [by left | | by left].
  cbn [of_sum tbind]. unfold Limited._get_graph_data, _get_graph_data.
  rewrite Hrows. cbn [of_sum tbind].
  destruct nodes as [|node rest]; [by left|].
  destruct (limited_build_tree py (node :: rest) node_id) as [Hraise | ->]; [|by left].
  right. exists project, (node :: rest). rewrite Hraise. done.
Qed.

(** What the code returns under the limit, it returns with room enough:
    a property of the results of [_build_tree], or of the graphs of [run],
    holds under the limit as well. *)
Lemma limited_build_tree_returned (py : Interpreter) (nodes : list NodeRecord)
    (root_id : string) result :
  Limited._build_tree py nodes root_id = Ret result →
  _build_tree nodes root_id = Ret result.
Proof.
  intros Hrun.
  destruct (limited_build_tree py nodes root_id) as [Hraise | Heq];
    [by rewrite Hraise in Hrun | by rewrite <- Heq].
Qed.

Lemma limited_run_graph (py : Interpreter) (sql_first : string → exn + option Project)
    (graph_rows : string → string → exn + list NodeRecord)
    (project_id node_id : string) (graph : Graph) (log : list Event) :
  Limited.run py sql_first graph_rows project_id node_id = (Ret (GraphResponse graph), log) →
  run sql_first graph_rows project_id node_id = (Ret (GraphResponse graph), log).
Proof.
  intros Hrun.
  destruct (limited_run_cases py sql_first graph_rows project_id node_id)
    as [Heq | (project & nodes & _ & _ & _ & _ & Herr)];
    [by rewrite <- Heq | by rewrite Herr in Hrun].
Qed.











(** ** Running the builder step by step *)

Section builder_steps.
Variable node_map : gmap string nat.

Lemma build_visited fuel ref st cur :
  objects st !! ref = Some cur → r_id cur ∈ visited st →
  build_node_tree node_map (S fuel) ref st = Ret (None, st).
Proof.
  intros Hcur Hin. rewrite build_node_tree_unfold. unfold deref. rewrite Hcur.
  cbn [obind]. by rewrite decide_True.
Qed.

Lemma build_fresh fuel ref st cur :
  objects st !! ref = Some cur → r_id cur ∉ visited st →
  build_node_tree node_map (S fuel) ref st =
    let kept := filter (λ child, is_Some (node_map !! c_id child)) (children cur) in
    st' ←! for_children node_map (build_node_tree node_map fuel) ref
             (S (length kept)) 0 (set_children ref kept (visited_add (r_id cur) st));
    Ret (Some ref, st').
Proof.
  intros Hcur Hin. rewrite build_node_tree_unfold. unfold deref. rewrite Hcur.
  cbn [obind]. by rewrite decide_False.
Qed.

Lemma for_children_done call ref n it st cur :
  objects st !! ref = Some cur → children cur !! it = None →
  for_children node_map call ref (S n) it st = Ret st.
Proof. intros Hcur Hit. simpl. unfold deref. by rewrite Hcur; cbn [obind]; rewrite Hit. Qed.

Lemma for_children_built call ref n it st cur child child_node st1 cur1 b :
  objects st !! ref = Some cur → children cur !! it = Some child →
  node_map !! c_id child = Some child_node →
  call child_node st = Ret (Some child_node, st1) →
  objects st1 !! ref = Some cur1 → objects st1 !! child_node = Some b →
  for_children node_map call ref (S n) it st =
    for_children node_map call ref n (S it)
      (set_children ref (alter (with_children (children b)) it (children cur1)) st1).
Proof.
  intros Hcur Hit Hmap Hcall Hcur1 Hb. simpl. unfold deref.
  rewrite Hcur; cbn [obind]. rewrite Hit, Hmap, Hcall; cbn [obind].
  rewrite Hcur1; cbn [obind]. by rewrite Hb.
Qed.

Lemma for_children_dropped call ref n it st cur child child_node st1 cur1 l :
  objects st !! ref = Some cur → children cur !! it = Some child →
  node_map !! c_id child = Some child_node →
  call child_node st = Ret (None, st1) →
  objects st1 !! ref = Some cur1 → list_remove child (children cur1) = Some l →
  for_children node_map call ref (S n) it st =
    for_children node_map call ref n (S it) (set_children ref l st1).
Proof.
  intros Hcur Hit Hmap Hcall Hcur1 Hl. simpl. unfold deref.
  rewrite Hcur; cbn [obind]. rewrite Hit, Hmap, Hcall; cbn [obind].
  rewrite Hcur1; cbn [obind]. by rewrite Hl.
Qed.
End builder_steps.

(** Tactics for a run on given rows.  [known_object] reads a record object
    out of a state written as updates of the rows; the others are entering
    a record not yet visited, filtering its children, one step of the loop
    for a child that is built or dropped, and the end of the loop. *)
Ltac known_object :=
  cbn [objects set_children visited_add];
  repeat first [ rewrite list_lookup_alter_eq | rewrite list_lookup_alter_ne by lia ];
  match goal with
  | H : ?l !! ?i = Some _ |- context [?l !! ?i] => rewrite H
  end;
  reflexivity.
Ltac visited_goal :=
  unfold r_id; cbn [visited visited_add set_children r_fields]; set_solver.
Ltac enter_node :=
  erewrite build_fresh; [ | known_object | visited_goal ];
  cbv zeta; unfold r_id; cbn [children r_fields].
Ltac keep_child H :=
  rewrite filter_cons_True by (unfold c_id; cbn [c_fields]; rewrite H; eauto).
Ltac keep_none := rewrite filter_nil; cbn [length].
Ltac built_child H tac :=
  erewrite for_children_built;
    [ | known_object | reflexivity | exact H | tac | known_object | known_object ].
Ltac dropped_child H :=
  erewrite for_children_dropped;
    [ | known_object | reflexivity | exact H
      | erewrite build_visited; [ reflexivity | known_object | visited_goal ]
      | known_object
      | cbn [children list_remove]; rewrite child_eqb_refl; reflexivity ].
Ltac leave_node :=
  erewrite for_children_done; [ | known_object | reflexivity ];
  cbn [obind]; try reflexivity.

(** ** A chain root → child → grandchild *)

Section chain.
Variables (nodes : list NodeRecord) (fr fc fg : Fields) (rel1 rel2 : string).
Hypothesis (Hrc : f_id fr ≠ f_id fc) (Hrg : f_id fr ≠ f_id fg) (Hcg : f_id fc ≠ f_id fg).
Hypothesis Hrows : nodes ≡ₚ chain_rows fr fc fg rel1 rel2.

Lemma chain_ids_NoDup : NoDup (r_id <$> chain_rows fr fc fg rel1 rel2).
Proof.
  cbn. repeat (apply NoDup_cons; split); rewrite ?not_elem_of_cons;
    repeat split; try done; try apply not_elem_of_nil. apply NoDup_nil_2.
Qed.

Lemma chain_builds :
  ∃ nodes',
    _build_tree nodes (f_id fr) =
      Ret (Some (mkNodeRecord fr
                   [mkChildRef fc rel1 (Some [mkChildRef fg rel2 (Some [])])]),
           nodes').
Proof.
  pose proof chain_ids_NoDup as Hnd.
  destruct (permuted_rows_lookup _ _ (mkNodeRecord fr [mkChildRef fc rel1 None])
              Hrows Hnd) as (ir & Hir & Hr); [set_solver|].
  destruct (permuted_rows_lookup _ _ (mkNodeRecord fc [mkChildRef fg rel2 None])
              Hrows Hnd) as (ic & Hic & Hc); [set_solver|].
  destruct (permuted_rows_lookup _ _ (mkNodeRecord fg [])
              Hrows Hnd) as (ig & Hig & Hg); [set_solver|].
  assert (Hsize : size (make_node_map nodes) = 3).
  { rewrite make_node_map_size, Hrows; [done | by rewrite Hrows]. }
  assert (ir ≠ ic) by congruence. assert (ir ≠ ig) by congruence.
  assert (ic ≠ ig) by congruence.
  unfold r_id in Hr, Hc, Hg. cbn [r_fields] in Hr, Hc, Hg.
  unfold _build_tree. rewrite Hr, Hsize.
  set (nm := make_node_map nodes) in *.
  enter_node. keep_child Hc. keep_none.
  built_child Hc ltac:(
    enter_node; keep_child Hg; keep_none;
    built_child Hg ltac:(enter_node; keep_none; leave_node);
    leave_node).
  leave_node. unfold deref. 
  match goal with |- context [objects ?st !! ir] =>
    assert (Hroot : objects st !! ir =
                      Some (mkNodeRecord fr
                              [mkChildRef fc rel1 (Some [mkChildRef fg rel2 (Some [])])]))
      by known_object;
    rewrite Hroot
  end.
  cbn [obind]. eexists. reflexivity.
Qed.
End chain.

(** ** A diamond A → B, A → C, B → D, C → D *)

Section diamond.
Variables (nodes : list NodeRecord) (fa fb fc fd : Fields) (ab ac bd cd : string).
Hypothesis Hids : NoDup [f_id fa; f_id fb; f_id fc; f_id fd].
Hypothesis Hrows : nodes ≡ₚ diamond_rows fa fb fc fd ab ac bd cd.

Lemma diamond_builds :
  ∃ nodes',
    _build_tree nodes (f_id fa) =
      Ret (Some (mkNodeRecord fa
                   [mkChildRef fb ab (Some [mkChildRef fd bd (Some [])]);
                    mkChildRef fc ac (Some [])]),
           nodes').
Proof.
  assert (Hnd : NoDup (r_id <$> diamond_rows fa fb fc fd ab ac bd cd)) by exact Hids.
  destruct (permuted_rows_lookup _ _
              (mkNodeRecord fa [mkChildRef fb ab None; mkChildRef fc ac None])
              Hrows Hnd) as (ia & Hia & Ha); [set_solver|].
  destruct (permuted_rows_lookup _ _ (mkNodeRecord fb [mkChildRef fd bd None])
              Hrows Hnd) as (ib & Hib & Hb); [set_solver|].
  destruct (permuted_rows_lookup _ _ (mkNodeRecord fc [mkChildRef fd cd None])
              Hrows Hnd) as (ic & Hic & Hc); [set_solver|].
  destruct (permuted_rows_lookup _ _ (mkNodeRecord fd [])
              Hrows Hnd) as (id & Hid & Hd); [set_solver|].
  assert (Hsize : size (make_node_map nodes) = 4).
  { rewrite make_node_map_size, Hrows; [done | by rewrite Hrows]. }
  clear Hnd. pose proof Hids as Hne.
  repeat (apply NoDup_cons in Hne as [? Hne]).
  rewrite !not_elem_of_cons in *. destruct_and!.
  assert (ia ≠ ib) by congruence. assert (ia ≠ ic) by congruence.
  assert (ia ≠ id) by congruence. assert (ib ≠ ic) by congruence.
  assert (ib ≠ id) by congruence. assert (ic ≠ id) by congruence.
  unfold r_id in Ha, Hb, Hc, Hd. cbn [r_fields] in Ha, Hb, Hc, Hd.
  unfold _build_tree. rewrite Ha, Hsize.
  set (nm := make_node_map nodes) in *.
  enter_node. keep_child Hb. keep_child Hc. keep_none.
  built_child Hb ltac:(
    enter_node; keep_child Hd; keep_none;
    built_child Hd ltac:(enter_node; keep_none; leave_node);
    leave_node).
  built_child Hc ltac:(
    enter_node; keep_child Hd; keep_none;
    dropped_child Hd;
    leave_node).
  leave_node. unfold deref.
  match goal with |- context [objects ?st !! ia] =>
    assert (Hroot : objects st !! ia =
                      Some (mkNodeRecord fa
                              [mkChildRef fb ab (Some [mkChildRef fd bd (Some [])]);
                               mkChildRef fc ac (Some [])]))
      by known_object;
    rewrite Hroot
  end.
  cbn [obind]. eexists. reflexivity.
Qed.
End diamond.

(** C3. For a diamond A → B, A → C, B → D, C → D with root A, the rows in
    any order, the builder returns, and the shared node D is in the tree
    under B and not under C: every id is in the whole tree at most once. *)
Theorem diamond_shared_once (nodes : list NodeRecord)
    (fa fb fc fd : Fields) (ab ac bd cd : string) :
  NoDup [f_id fa; f_id fb; f_id fc; f_id fd] →
  nodes ≡ₚ diamond_rows fa fb fc fd ab ac bd cd →
  ∃ tree nodes' under_b under_c,
    _build_tree nodes (f_id fa) = Ret (Some tree, nodes') ∧
    r_id tree = f_id fa ∧
    children tree = [under_b; under_c] ∧
    c_id under_b = f_id fb ∧ c_id under_c = f_id fc ∧
    f_id fd ∈ child_ids under_b ∧ (f_id fd ∉ child_ids under_c) ∧
    NoDup (tree_ids tree).
Proof.
  intros Hids Hrows.
  destruct (diamond_builds nodes fa fb fc fd ab ac bd cd Hids Hrows) as [nodes' Hrun].
  eexists _, nodes', _, _. split; [exact Hrun|].
  repeat (apply NoDup_cons in Hids as [? Hids]).
  rewrite !not_elem_of_cons in *. destruct_and!.
  repeat split; try reflexivity.
  - right. left.
  - intros Hin. apply list_elem_of_singleton in Hin. congruence.
  - cbn. repeat (apply NoDup_cons; split); rewrite ?not_elem_of_cons;
      repeat split; try done; try apply not_elem_of_nil; try apply NoDup_nil_2; congruence.
Qed.

Lemma diamond_shared_once_witness :
  let f := λ i, mkFields i i "FUNCTION" "Unknown" None None in
  ∃ tree nodes' under_b under_c,
    _build_tree (diamond_rows (f "A") (f "B") (f "C") (f "D") "CALLS" "CALLS" "CALLS" "CALLS")
      "A" = Ret (Some tree, nodes') ∧
    r_id tree = "A" ∧
    children tree = [under_b; under_c] ∧
    c_id under_b = "B" ∧ c_id under_c = "C" ∧
    "D" ∈ child_ids under_b ∧ ("D" ∉ child_ids under_c) ∧
    NoDup (tree_ids tree).
Proof.
  intros f.
  apply (diamond_shared_once _ (f "A") (f "B") (f "C") (f "D")
           "CALLS" "CALLS" "CALLS" "CALLS").
  - subst f. cbn [f_id]. compute_done.
  - reflexivity.
Defined.

(** C1, at an input where the code departs from it: root A with the
    children A (a self-loop) and B, and B with the child C.  The reference
    to B passes the existence filter, but when the self-loop before it is
    removed from the list the loop steps over B: B is kept without ever
    being expanded, and nothing is spliced into it. *)
Theorem child_after_dropped_not_expanded :
  let f := λ i, mkFields i i "FUNCTION" "Unknown" None None in
  let nodes := [ mkNodeRecord (f "A") [mkChildRef (f "A") "CALLS" None;
                                       mkChildRef (f "B") "CALLS" None];
                 mkNodeRecord (f "B") [mkChildRef (f "C") "CALLS" None];
                 mkNodeRecord (f "C") [] ] in
  is_Some (make_node_map nodes !! "B") ∧
  _build_tree nodes "A" =
    Ret (Some (mkNodeRecord (f "A") [mkChildRef (f "B") "CALLS" None]),
         [ mkNodeRecord (f "A") [mkChildRef (f "B") "CALLS" None];
           mkNodeRecord (f "B") [mkChildRef (f "C") "CALLS" None];
           mkNodeRecord (f "C") [] ]).
Proof. split; [by eexists | vm_compute; reflexivity]. Qed.

(** C2, at an input where the code departs from it: the cycle A → B → A
    where B also calls itself.  The builder returns, but the self-loop of B
    is removed under the iterator, the edge B → A that closes the cycle is
    stepped over and kept, and the id A is twice on the path from the
    root. *)
Theorem cycle_edge_kept_after_dropped :
  let f := λ i, mkFields i i "FUNCTION" "Unknown" None None in
  let nodes := [ mkNodeRecord (f "A") [mkChildRef (f "B") "CALLS" None];
                 mkNodeRecord (f "B") [mkChildRef (f "B") "CALLS" None;
                                       mkChildRef (f "A") "CALLS" None] ] in
  ∃ tree nodes',
    _build_tree nodes "A" = Ret (Some tree, nodes') ∧
    tree = mkNodeRecord (f "A")
             [mkChildRef (f "B") "CALLS" (Some [mkChildRef (f "A") "CALLS" None])] ∧
    tree_ids tree = ["A"; "B"; "A"].
Proof. eexists _, _. split; [vm_compute; reflexivity | split; reflexivity]. Qed.

(** The cycle A → B → A of the specification alone is cut where it
    closes. *)
Example plain_cycle_cut :
  let f := λ i, mkFields i i "FUNCTION" "Unknown" None None in
  let nodes := [ mkNodeRecord (f "A") [mkChildRef (f "B") "CALLS" None];
                 mkNodeRecord (f "B") [mkChildRef (f "A") "CALLS" None] ] in
  ∃ nodes',
    _build_tree nodes "A" =
      Ret (Some (mkNodeRecord (f "A") [mkChildRef (f "B") "CALLS" (Some [])]), nodes').
Proof. eexists. vm_compute. reflexivity. Qed.

(** ** The response assembler *)

Lemma tree_nodes_unfold (t : TreeNode) :
  tree_nodes t = t :: concat (tree_nodes <$> t_children t).
Proof. by destruct t. Qed.

Lemma process_child_unfold (c : ChildRef) :
  process_child c = process_node (c_fields c) (c_children c).
Proof. by destruct c as [f rel [l|]]. Qed.

(** Output and input trees have the same shape, and each output node has
    the normalised path of the input node at its place. *)
Lemma process_children_paths (l : list ChildRef) :
  Forall (λ c, ∀ rel,
            Forall2 (λ f t, normalised (f_file_path f) (t_file_path t))
                    (child_fields c)
                    (tree_nodes (set_relationship rel (process_child c)))) l →
  Forall2 (λ f t, normalised (f_file_path f) (t_file_path t))
          (concat (child_fields <$> l))
          (concat (tree_nodes <$>
                   map (λ child, set_relationship (relationship child)
                                   (process_child child)) l)).
Proof.
  induction 1 as [|c l Hc _ IH]; [constructor|].
  cbn [map]. rewrite !fmap_cons. cbn [concat].
  apply Forall2_app; [apply Hc | apply IH].
Qed.

Lemma process_child_paths (c : ChildRef) (rel : string) :
  Forall2 (λ f t, normalised (f_file_path f) (t_file_path t))
          (child_fields c) (tree_nodes (set_relationship rel (process_child c))).
Proof.
  revert rel. induction c as [f r | f r l IH] using ChildRef_nested_ind; intros rel.
  - repeat constructor. apply relative_file_path_normalised.
  - rewrite tree_nodes_unfold.
    constructor; [apply relative_file_path_normalised|].
    by apply process_children_paths.
Qed.

Lemma process_node_paths (r : NodeRecord) :
  Forall2 (λ f t, normalised (f_file_path f) (t_file_path t))
          (record_fields r) (tree_nodes (process_node (r_fields r) (Some (children r)))).
Proof.
  rewrite tree_nodes_unfold. constructor; [apply relative_file_path_normalised|].
  apply process_children_paths, Forall_forall. intros c _ rel.
  apply process_child_paths.
Qed.

(** C6, as stated, fails: a stored path without a segment ["projects"]
    reaches the envelope as it is, absolute. *)
Lemma absolute_path_in_envelope :
  ¬ (∀ (sql_first : string → exn + option Project)
       (graph_rows : string → string → exn + list NodeRecord)
       (project_id node_id : string) (graph : Graph) (log : list Event),
       run sql_first graph_rows project_id node_id = (Ret (GraphResponse graph), log) →
       Forall (λ t, t_file_path t = "Unknown" ∨ is_absolute (t_file_path t) = false)
              (tree_nodes (root_node graph))).
Proof.
  intros H.
  specialize (H (λ _, inr (Some (mkProject "demo" "main")))
                (λ _ _, inr [mkNodeRecord
                               (mkFields "n1" "file.py" "FILE" "/var/data/other/file.py"
                                         None None) []])
                "p1" "n1" _ _ eq_refl).
  apply Forall_cons in H as [[H|H] _]; discriminate H.
Qed.

(** ** The operation [run] *)

Lemma chain_run (sql_first : string → exn + option Project)
    (graph_rows : string → string → exn + list NodeRecord)
    (project_id : string) (project : Project) (nodes : list NodeRecord)
    (fr fc fg : Fields) (rel1 rel2 : string) :
  f_id fr ≠ f_id fc → f_id fr ≠ f_id fg → f_id fc ≠ f_id fg →
  nodes ≡ₚ chain_rows fr fc fg rel1 rel2 →
  sql_first project_id = inr (Some project) →
  graph_rows project_id (f_id fr) = inr nodes →
  run sql_first graph_rows project_id (f_id fr) =
    (Ret (_process_graph_data
            (mkNodeRecord fr [mkChildRef fc rel1 (Some [mkChildRef fg rel2 (Some [])])])
            project),
     [SqlQuery project_id; GraphQuery project_id (f_id fr)]).
Proof.
  intros Hrc Hrg Hcg Hperm Hsql Hrows.
  destruct (chain_builds nodes fr fc fg rel1 rel2 Hrc Hrg Hcg Hperm) as [nodes' Hbuild].
  unfold run, run_try, _get_project, _get_graph_data.
  rewrite Hsql, Hrows. cbn [of_sum tbind].
  destruct nodes as [|node rest]; [by apply Permutation_length in Hperm|].
  rewrite Hbuild. reflexivity.
Qed.

(** C5. The assembler names the graph ["Code Graph for <repo_name>"] and
    gives the root no relationship label; for a chain
    root → child → grandchild, fetched in any order of rows, the first child
    of the root carries the relationship of the fetched edge, and its first
    child has the id of the grandchild. *)
Theorem chain_graph :
  (∀ (graph_data : NodeRecord) (project : Project),
     ∃ graph,
       _process_graph_data graph_data project = GraphResponse graph ∧
       g_name graph = "Code Graph for " ++ repo_name project ∧
       g_repo_name graph = repo_name project ∧
       g_branch_name graph = branch_name project ∧
       t_id (root_node graph) = r_id graph_data ∧
       t_relationship (root_node graph) = None) ∧
  (∀ (sql_first : string → exn + option Project)
     (graph_rows : string → string → exn + list NodeRecord)
     (project_id : string) (project : Project) (nodes : list NodeRecord)
     (fr fc fg : Fields) (rel1 rel2 : string),
     f_id fr ≠ f_id fc → f_id fr ≠ f_id fg → f_id fc ≠ f_id fg →
     nodes ≡ₚ chain_rows fr fc fg rel1 rel2 →
     sql_first project_id = inr (Some project) →
     graph_rows project_id (f_id fr) = inr nodes →
     ∃ graph log child grandchild,
       run sql_first graph_rows project_id (f_id fr) = (Ret (GraphResponse graph), log) ∧
       g_name graph = "Code Graph for " ++ repo_name project ∧
       t_id (root_node graph) = f_id fr ∧
       t_relationship (root_node graph) = None ∧
       t_children (root_node graph) !! 0 = Some child ∧
       t_relationship child = Some rel1 ∧
       t_children child !! 0 = Some grandchild ∧
       t_id grandchild = f_id fg).
Proof.
  split.
  - intros graph_data project. eexists. split; [reflexivity|]. repeat split.
  - intros sql_first graph_rows project_id project nodes fr fc fg rel1 rel2
      Hrc Hrg Hcg Hperm Hsql Hrows.
    rewrite (chain_run _ _ _ project nodes fr fc fg rel1 rel2) by done.
    unfold _process_graph_data.
    eexists _, _, _, _. split; [reflexivity|].
    repeat split; reflexivity.
Qed.

Lemma chain_graph_witness :
  let f := λ i, mkFields i i "FUNCTION" "Unknown" None None in
  ∃ graph log child grandchild,
    run (λ _, inr (Some (mkProject "demo" "main")))
        (λ _ _, inr (chain_rows (f "root") (f "child") (f "grandchild") "CALLS" "CONTAINS"))
        "p1" "root" = (Ret (GraphResponse graph), log) ∧
    g_name graph = "Code Graph for demo" ∧
    t_id (root_node graph) = "root" ∧
    t_relationship (root_node graph) = None ∧
    t_children (root_node graph) !! 0 = Some child ∧
    t_relationship child = Some "CALLS" ∧
    t_children child !! 0 = Some grandchild ∧
    t_id grandchild = "grandchild".
Proof.
  intros f.
  apply (proj2 chain_graph (λ _, inr (Some (mkProject "demo" "main")))
           (λ _ _, inr (chain_rows (f "root") (f "child") (f "grandchild") "CALLS" "CONTAINS"))
           "p1" (mkProject "demo" "main")
           (chain_rows (f "root") (f "child") (f "grandchild") "CALLS" "CONTAINS")
           (f "root") (f "child") (f "grandchild") "CALLS" "CONTAINS");
    (discriminate || reflexivity).
Defined.

Lemma run_graph_inv (sql_first : string → exn + option Project)
    (graph_rows : string → string → exn + list NodeRecord)
    (project_id node_id : string) (graph : Graph) (log : list Event) :
  run sql_first graph_rows project_id node_id = (Ret (GraphResponse graph), log) →
  ∃ project nodes graph_data nodes',
    sql_first project_id = inr (Some project) ∧
    graph_rows project_id node_id = inr nodes ∧
    _build_tree nodes node_id = Ret (Some graph_data, nodes') ∧
    _process_graph_data graph_data project = GraphResponse graph.
Proof.
  unfold run, run_try, _get_project, _get_graph_data.
  destruct (sql_first project_id) as [e|[project|]] eqn:Hsql;
    cbn [of_sum tbind tret try_except run_except]; [by intros [=] | | by intros [=]].
  destruct (graph_rows project_id node_id) as [e|[|node rest]] eqn:Hrows;
    cbn [of_sum tbind tret try_except run_except]; [by intros [=].. |].
  destruct (_build_tree (node :: rest) node_id) as [[[graph_data|] nodes']|e|] eqn:Hbuild;
    cbn [obind tbind tret try_except run_except]; [|by intros [=]..].
  unfold _process_graph_data. intros [= Hg _].
  exists project, (node :: rest), graph_data, nodes'. by rewrite Hg.
Qed.

(** C6, amended. In every successful response envelope the [file_path] of
    every node of the output tree is what the path normaliser makes of the
    path stored for that node in the built tree: ["Unknown"] for an empty
    or ["Unknown"] path, the segments after the one that follows the first
    segment ["projects"] when there is one, and otherwise the stored path
    unchanged, be it absolute. *)
Theorem envelope_paths_normalised (sql_first : string → exn + option Project)
    (graph_rows : string → string → exn + list NodeRecord)
    (project_id node_id : string) (graph : Graph) (log : list Event) :
  run sql_first graph_rows project_id node_id = (Ret (GraphResponse graph), log) →
  ∃ nodes graph_data nodes',
    graph_rows project_id node_id = inr nodes ∧
    _build_tree nodes node_id = Ret (Some graph_data, nodes') ∧
    Forall2 (λ f t, normalised (f_file_path f) (t_file_path t))
            (record_fields graph_data) (tree_nodes (root_node graph)).
Proof.
  intros (project & nodes & graph_data & nodes' & _ & Hrows & Hbuild & Hg)%run_graph_inv.
  exists nodes, graph_data, nodes'. split; [done | split; [done|]].
  unfold _process_graph_data in Hg. injection Hg as <-.
  apply process_node_paths.
Qed.

Lemma envelope_paths_normalised_witness :
  let row := mkNodeRecord
               (mkFields "n1" "main" "FILE" "/home/user/projects/abc123/src/main.py"
                         None None) [] in
  let out := mkTreeNode "n1" "main" "FILE" "src/main.py" None None [] None in
  let graph_rows : string → string → exn + list NodeRecord := λ _ _, inr [row] in
  ∃ nodes graph_data nodes',
    graph_rows "p1" "n1" = inr nodes ∧
    _build_tree nodes "n1" = Ret (Some graph_data, nodes') ∧
    Forall2 (λ f t, normalised (f_file_path f) (t_file_path t))
            (record_fields graph_data) (tree_nodes out).
Proof.
  intros row out graph_rows.
  apply (envelope_paths_normalised
           (λ _, inr (Some (mkProject "demo" "main"))) graph_rows "p1" "n1"
           (mkGraph "Code Graph for demo" "demo" "main" out)
           [SqlQuery "p1"; GraphQuery "p1" "n1"]).
  reflexivity.
Defined.





(** * Further properties *)

(** ** [split] and [join] *)

Lemma append_cons (c : ascii) (s t : string) : String c s ++ t = String c (s ++ t).
Proof. reflexivity. Qed.

Lemma append_nil_r (s : string) : s ++ "" = s.
Proof. induction s as [|c s IH]; [done|]. by rewrite append_cons, IH. Qed.

Lemma append_assoc (s1 s2 s3 : string) : (s1 ++ s2) ++ s3 = s1 ++ (s2 ++ s3).
Proof. induction s1 as [|c s1 IH]; [done|]. by rewrite !append_cons, IH. Qed.

Lemma split_not_nil (sep : ascii) (s : string) : split sep s ≠ [].
Proof.
  destruct s as [|ch rest]; [done|]. cbn.
  destruct (Ascii.eqb ch sep); [done|]. by destruct (split sep rest).
Qed.

Lemma join_cons (sep p : string) (ps : list string) :
  ps ≠ [] → join sep (p :: ps) = p ++ sep ++ join sep ps.
Proof. by destruct ps. Qed.

(** [sep.join(s.split(sep))] is [s] again. *)
Lemma join_split (sep : ascii) (s : string) :
  join (String sep "") (split sep s) = s.
Proof.
  induction s as [|ch rest IH]; [done|]. cbn [split].
  destruct (Ascii.eqb_spec ch sep) as [->|Hne].
  - rewrite join_cons by apply split_not_nil. by rewrite IH.
  - pose proof (split_not_nil sep rest) as Hnil.
    destruct (split sep rest) as [|seg segs]; [done|].
    destruct segs as [|seg' segs'].
    + cbn [join] in *. by rewrite IH.
    + rewrite join_cons by done. rewrite join_cons in IH by done.
      by rewrite append_cons, IH.
Qed.

(** Splitting a text with a separator in the middle splits both sides. *)
Lemma split_app (sep : ascii) (a b : string) :
  split sep (a ++ String sep b) = (split sep a ++ split sep b)%list.
Proof.
  induction a as [|ch a IH].
  { change ("" ++ String sep b) with (String sep b). cbn [split].
    by rewrite Ascii.eqb_refl. }
  rewrite append_cons. cbn [split].
  - destruct (Ascii.eqb ch sep); [by rewrite IH|].
    rewrite IH. pose proof (split_not_nil sep a) as Hnil.
    by destruct (split sep a).
Qed.

Lemma split_no_sep (sep : ascii) (s : string) :
  contains_char sep s = false → split sep s = [s].
Proof.
  induction s as [|ch s IH]; [done|]. cbn.
  intros [Hch Hs]%orb_false_iff. rewrite Hch, (IH Hs). done.
Qed.

Lemma index_app_r (x : string) (l1 l2 : list string) :
  x ∉ l1 → index x (l1 ++ x :: l2) = Some (length l1).
Proof.
  induction l1 as [|p l1 IH]; cbn.
  - by rewrite String.eqb_refl.
  - intros [Hne Hl1]%not_elem_of_cons.
    destruct (String.eqb_spec p x) as [->|_]; [done|]. by rewrite (IH Hl1).
Qed.

(** Dropping leading segments leaves a suffix of the joined text. *)
Lemma join_drop_suffix (sep : string) (k : nat) (parts : list string) :
  ∃ pre, join sep parts = pre ++ join sep (drop k parts).
Proof.
  revert k. induction parts as [|p ps IH]; intros k.
  - exists "". by rewrite drop_nil.
  - destruct k as [|k]; [by exists ""|]. cbn [drop].
    destruct (IH k) as [pre Hpre].
    destruct ps as [|q qs].
    + exists p. rewrite drop_nil. cbn [join]. by rewrite append_nil_r.
    + exists (p ++ sep ++ pre). rewrite join_cons by done.
      rewrite Hpre, !append_assoc. done.
Qed.

(** X1. The path normaliser only cuts a path at its front: its result is
    ["Unknown"], or the end of the path it was given. *)
Theorem relative_file_path_suffix (file_path : string) :
  _get_relative_file_path file_path = "Unknown" ∨
  ∃ pre, file_path = pre ++ _get_relative_file_path file_path.
Proof.
  destruct (decide (file_path = "")) as [->|H1]; [by left|].
  destruct (decide (file_path = "Unknown")) as [->|H2]; [by left|].
  right. rewrite relative_file_path_unfold by done.
  destruct (index "projects" (split "/" file_path)) as [i|]; [|by exists ""].
  destruct (join_drop_suffix "/" (i + 2) (split "/" file_path)) as [pre Hpre].
  exists pre. rewrite <- Hpre. symmetry. apply (join_split "/").
Qed.

(** X2. For a path laid out as [<pre>/projects/<dir>/<rest>], where [pre]
    has no segment ["projects"] and [dir] no separator, the path normaliser
    returns [rest], whatever [rest] is. *)
Theorem relative_file_path_layout (pre dir rest : string) :
  "projects" ∉ split "/" pre →
  contains_char "/" dir = false →
  _get_relative_file_path (pre ++ "/projects/" ++ dir ++ "/" ++ rest) = rest.
Proof.
  intros Hpre Hdir.
  assert (Hsplit : split "/" (pre ++ "/projects/" ++ dir ++ "/" ++ rest) =
                   (split "/" pre ++ "projects" :: dir :: split "/" rest)%list).
  { change (pre ++ "/projects/" ++ dir ++ "/" ++ rest)
      with (pre ++ String "/" ("projects" ++ String "/" (dir ++ String "/" rest))).
    rewrite !split_app, (split_no_sep "/" dir Hdir). done. }
  rewrite relative_file_path_unfold.
  - rewrite Hsplit, index_app_r by done.
    rewrite drop_app_add. cbn [drop]. apply (join_split "/").
  - intros Heq. rewrite Heq in Hsplit. apply (f_equal length) in Hsplit.
    rewrite length_app in Hsplit. cbn in Hsplit. lia.
  - intros Heq. rewrite Heq in Hsplit. apply (f_equal length) in Hsplit.
    rewrite length_app in Hsplit. cbn in Hsplit. lia.
Qed.

Lemma relative_file_path_layout_witness :
  _get_relative_file_path ("/home/user" ++ "/projects/" ++ "abc123" ++ "/" ++ "src/app/main.py")
    = "src/app/main.py".
Proof.
  apply (relative_file_path_layout "/home/user" "abc123" "src/app/main.py").
  - apply index_None. reflexivity.
  - reflexivity.
Defined.

(** ** The assembler, node by node *)

Lemma process_children_entries (l : list ChildRef) :
  Forall (λ c, Forall2 assembled (child_entries c)
                 (tree_nodes (set_relationship (relationship c) (process_child c)))) l →
  Forall2 assembled
          (concat (child_entries <$> l))
          (concat (tree_nodes <$>
                   map (λ child, set_relationship (relationship child)
                                   (process_child child)) l)).
Proof.
  induction 1 as [|c l Hc _ IH]; [constructor|].
  cbn [map]. rewrite !fmap_cons. cbn [concat].
  apply Forall2_app; [apply Hc | apply IH].
Qed.

Lemma process_child_entries (c : ChildRef) :
  Forall2 assembled (child_entries c)
          (tree_nodes (set_relationship (relationship c) (process_child c))).
Proof.
  induction c as [f r | f r l IH] using ChildRef_nested_ind.
  - repeat constructor.
  - rewrite tree_nodes_unfold. cbn [child_entries].
    constructor.
    + repeat split. cbn. by rewrite length_map.
    + by apply process_children_entries.
Qed.

(** X3. The assembler keeps the tree as it is built: node by node, parents
    before children, it copies id, name, type, start_line and end_line,
    normalises file_path, keeps the number of children, labels every node
    below the root with the relationship of its child reference, and
    leaves the root without a label. *)
Theorem process_graph_data_entries (graph_data : NodeRecord) (project : Project) :
  ∃ graph,
    _process_graph_data graph_data project = GraphResponse graph ∧
    g_repo_name graph = repo_name project ∧
    g_branch_name graph = branch_name project ∧
    Forall2 assembled (record_entries graph_data) (tree_nodes (root_node graph)).
Proof.
  eexists. split; [reflexivity|]. split; [done|]. split; [done|].
  cbn [root_node]. rewrite tree_nodes_unfold. constructor.
  - repeat split. cbn. by rewrite length_map.
  - apply process_children_entries, Forall_forall. intros c _.
    apply process_child_entries.
Qed.

(** ** The outcomes of [run] *)

Lemma get_graph_data_rows (graph_rows : string → string → exn + list NodeRecord)
    (project_id node_id : string) (nodes : list NodeRecord) :
  graph_rows project_id node_id = inr nodes →
  ∃ built nodes',
    _build_tree nodes node_id = Ret (built, nodes') ∧
    _get_graph_data graph_rows project_id node_id =
      (Ret built, [GraphQuery project_id node_id]) ∧
    (built = None ↔ node_id ∉ r_id <$> nodes) ∧
    (∀ tree, built = Some tree → r_id tree = node_id).
Proof.
  intros Hrows. unfold _get_graph_data. rewrite Hrows. cbn [of_sum tbind].
  destruct (build_tree_returns nodes node_id)
    as [[Hnot Hb] | (root & tree & st' & Hroot & Hb & _ & _ & Hid)].
  - exists None, nodes. split; [done|]. split; [|done].
    destruct nodes; [done|]. by rewrite Hb.
  - exists (Some tree), (objects st'). split; [done|]. split; [|split].
    + destruct nodes as [|node rest]; [|by rewrite Hb].
      change (make_node_map []) with (∅ : gmap string nat) in Hroot.
      by rewrite lookup_empty in Hroot.
    + split; [done|]. intros Hnot. destruct Hnot.
      apply make_node_map_is_Some. eauto.
    + by intros ? [= <-].
Qed.



(** X5. When the project is found but the rows of the graph store do not
    hold the node id (no rows at all among them), [run] returns the error
    ["No graph data found for node ID '<node_id>' in repo '<project_id>'"],
    having queried both stores once and logged nothing. *)
Theorem run_no_graph_data (sql_first : string → exn + option Project)
    (graph_rows : string → string → exn + list NodeRecord)
    (project_id node_id : string) (project : Project) (nodes : list NodeRecord) :
  sql_first project_id = inr (Some project) →
  graph_rows project_id node_id = inr nodes →
  node_id ∉ r_id <$> nodes →
  run sql_first graph_rows project_id node_id =
    (Ret (ErrorResponse
            ("No graph data found for node ID '" ++ node_id ++
             "' in repo '" ++ project_id ++ "'")),
     [SqlQuery project_id; GraphQuery project_id node_id]).
Proof.
  intros Hsql Hrows Hnot.
  destruct (get_graph_data_rows _ _ _ _ Hrows)
    as (built & nodes' & Hb & Hget & Hnone & _).
  rewrite (proj2 Hnone Hnot) in Hget.
  unfold run, run_try, _get_project. rewrite Hsql. cbn [of_sum tbind].
  rewrite Hget. reflexivity.
Qed.

Lemma run_no_graph_data_witness :
  run (λ _, inr (Some (mkProject "demo" "main"))) (λ _ _, inr []) "p1" "n1" =
    (Ret (ErrorResponse "No graph data found for node ID 'n1' in repo 'p1'"),
     [SqlQuery "p1"; GraphQuery "p1" "n1"]).
Proof.
  apply (run_no_graph_data (λ _, inr (Some (mkProject "demo" "main"))) (λ _ _, inr [])
           "p1" "n1" (mkProject "demo" "main") []).
  - reflexivity.
  - reflexivity.
  - apply not_elem_of_nil.
Defined.


(** ** A rule for invariants of the builder

    A property [I] of states holds after a call of the builder if it holds
    before and the three writes of [build_node_tree] keep it: entering a
    record (marking it visited and storing its filtered children), splicing
    the children of a built record into a reference, and removing a
    reference.  [Pre] is what is known of the record a call is made on. *)

Section builder_invariant.
Variable node_map : gmap string nat.
Variable I : BuildState → Prop.
Variable Pre : nat → BuildState → Prop.

Hypothesis I_enter : ∀ st ref cur,
  wf_map node_map st → node_map !! r_id cur = Some ref →
  objects st !! ref = Some cur → r_id cur ∉ visited st →
  Pre ref st → I st →
  I (set_children ref
       (filter (λ child, is_Some (node_map !! c_id child)) (children cur))
       (visited_add (r_id cur) st)).

Hypothesis I_call : ∀ st ref cur it child j,
  wf_map node_map st → node_map !! r_id cur = Some ref →
  objects st !! ref = Some cur → r_id cur ∈ visited st →
  children cur !! it = Some child → node_map !! c_id child = Some j →
  I st → Pre j st.

Hypothesis I_splice : ∀ st ref cur it child j b,
  wf_map node_map st → node_map !! r_id cur = Some ref →
  objects st !! ref = Some cur → r_id cur ∈ visited st →
  children cur !! it = Some child → node_map !! c_id child = Some j →
  objects st !! j = Some b → c_id child ∈ visited st →
  I st →
  I (set_children ref (alter (with_children (children b)) it (children cur)) st).

Hypothesis I_drop : ∀ st ref cur child l,
  wf_map node_map st → node_map !! r_id cur = Some ref →
  objects st !! ref = Some cur → r_id cur ∈ visited st →
  child ∈ children cur → list_remove child (children cur) = Some l →
  I st →
  I (set_children ref l st).

Lemma for_children_invariant call budget k current_node :
  call_spec node_map call budget →
  inv_spec node_map I Pre call budget →
  node_map !! k = Some current_node →
  ∀ n it st cur st',
    wf_map node_map st → k ∈ visited st →
    size (dom node_map ∖ visited st) < budget →
    objects st !! current_node = Some cur →
    Forall (λ c, is_Some (node_map !! c_id c)) (children cur) →
    I st →
    for_children node_map call current_node n it st = Ret st' →
    I st'.
Proof.
  intros Hcall Hinv Hk.
  induction n as [|n IH]; intros it st cur st' Hwf Hvis Hsize Hcur Hall HI; [done|].
  assert (Hidk : r_id cur = k).
  { destruct (Hwf _ _ Hk) as (r & Hr & <-). by simplify_eq. }
  simpl. unfold deref at 1. rewrite Hcur. simpl.
  destruct (children cur !! it) as [child|] eqn:Hchild; [|by intros [= <-]].
  assert (Hmem : child ∈ children cur) by (apply list_elem_of_lookup; eauto).
  destruct (proj1 (Forall_forall _ _) Hall child Hmem) as [child_node Hcn].
  rewrite Hcn.
  assert (Hpre : Pre child_node st).
  { eapply (I_call st current_node cur); eauto; by rewrite Hidk. }
  destruct (Hcall _ _ _ Hwf Hcn Hsize) as (built & st1 & Hrun1 & Hev1 & Hbuilt).
  pose proof (Hinv _ _ _ _ _ Hwf Hcn Hsize Hpre HI Hrun1) as HI1.
  rewrite Hrun1. simpl.
  assert (Hcur1 : objects st1 !! current_node = Some cur).
  { apply (ev_frame _ _ _ Hev1); [done | done | left]. by rewrite Hidk. }
  assert (Hwf1 : wf_map node_map st1) by (by eapply evolves_wf).
  assert (Hvis1 : k ∈ visited st1) by (by apply (ev_visited _ _ _ Hev1)).
  assert (Hsize1 : size (dom node_map ∖ visited st1) < budget).
  { eapply Nat.le_lt_trans; [apply unvisited_mono, (ev_visited _ _ _ Hev1) | done]. }
  unfold deref at 1. rewrite Hcur1. simpl.
  destruct Hbuilt as [(-> & _ & _) | (-> & _ & Hcv)].
  - destruct (list_remove_elem _ _ Hmem) as [l Hl]. rewrite Hl.
    destruct (list_remove_Some _ _ _ Hl) as [Hsub Hlen].
    pose proof (evolves_set_children current_node cur l st1 Hcur1
                  (fmap_sublist edge _ _ Hsub)) as Hev2.
    apply (IH (S it) (set_children current_node l st1)
              {| r_fields := r_fields cur; children := l |}).
    + by eapply evolves_wf.
    + done.
    + done.
    + by apply set_children_lookup.
    + simpl. by eapply Forall_sublist.
    + eapply (I_drop st1 current_node cur child l); eauto; by rewrite Hidk.
  - destruct (Hwf1 _ _ Hcn) as (b & Hb & _).
    unfold deref at 1. rewrite Hb. simpl.
    set (l := alter (with_children (children b)) it (children cur)).
    assert (Hedge : edge <$> l = edge <$> children cur)
      by apply edge_alter_with_children.
    pose proof (evolves_set_children current_node cur l st1 Hcur1) as Hev2.
    rewrite Hedge in Hev2. specialize (Hev2 (reflexivity _)).
    apply (IH (S it) (set_children current_node l st1)
              {| r_fields := r_fields cur; children := l |}).
    + by eapply evolves_wf.
    + done.
    + done.
    + by apply set_children_lookup.
    + simpl. unfold l. apply Forall_alter; [done|]. intros c _ Hc. exact Hc.
    + eapply (I_splice st1 current_node cur it child child_node b); eauto;
        by rewrite Hidk.
Qed.

Lemma build_node_tree_invariant (fuel : nat) :
  inv_spec node_map I Pre (build_node_tree node_map fuel) fuel.
Proof.
  induction fuel as [|fuel IH]; intros k ref st built st' Hwf Hk Hsize Hpre HI; [lia|].
  destruct (Hwf _ _ Hk) as (cur & Hcur & Hid0).
  rewrite build_node_tree_unfold. unfold deref at 1. rewrite Hcur.
  cbn [obind]. rewrite Hid0.
  destruct (decide (k ∈ visited st)) as [Hin|Hnot]; [by intros [= _ <-]|].
  set (kept := filter (λ child, is_Some (node_map !! c_id child)) (children cur)).
  set (st0 := visited_add k st).
  set (st1 := set_children ref kept st0).
  assert (Hcur0 : objects st0 !! ref = Some cur) by done.
  assert (Hkept : sublist kept (children cur)) by apply sublist_filter.
  pose proof (evolves_set_children ref cur kept st0 Hcur0
                (fmap_sublist edge _ _ Hkept)) as Hev1.
  fold st1 in Hev1.
  assert (Hev01 : evolves (Some ref) st st1).
  { eapply evolves_trans; [apply evolves_visited_add | exact Hev1]. }
  assert (Hsize1 : size (dom node_map ∖ visited st1) < fuel).
  { pose proof (unvisited_shrinks node_map (visited st) k (mk_is_Some _ _ Hk) Hnot).
    simpl. lia. }
  assert (HI1 : I st1).
  { unfold st1, st0, kept. rewrite <- Hid0.
    apply I_enter; rewrite ?Hid0; done. }
  cbv zeta. fold kept. fold st0. fold st1.
  destruct (for_children node_map (build_node_tree node_map fuel) ref
              (S (length kept)) 0 st1) as [st2| |] eqn:Hrun; cbn [obind]; [|done..].
  intros [= _ <-].
  eapply (for_children_invariant (build_node_tree node_map fuel) fuel k ref
            (build_node_tree_returns node_map fuel) IH Hk
            (S (length kept)) 0 st1); [..|exact Hrun].
  - by eapply evolves_wf.
  - simpl. set_solver.
  - done.
  - by apply set_children_lookup.
  - simpl. apply Forall_forall. intros c Hc.
    by apply (list_elem_of_filter (λ child, is_Some (node_map !! c_id child))) in Hc as [? _].
  - done.
Qed.
End builder_invariant.

Lemma build_tree_run (nodes : list NodeRecord) (root_id : string) (root : nat) :
  make_node_map nodes !! root_id = Some root →
  ∃ tree st',
    build_node_tree (make_node_map nodes) (S (size (make_node_map nodes))) root
      {| visited := ∅; objects := nodes |} = Ret (Some root, st') ∧
    _build_tree nodes root_id = Ret (Some tree, objects st') ∧
    evolves None {| visited := ∅; objects := nodes |} st' ∧
    objects st' !! root = Some tree ∧ r_id tree = root_id ∧
    root_id ∈ visited st'.
Proof.
  intros Hroot.
  pose proof (make_node_map_wf nodes ∅) as Hwf.
  destruct (build_node_tree_returns (make_node_map nodes)
              (S (size (make_node_map nodes))) root_id root
              {| visited := ∅; objects := nodes |} Hwf Hroot)
    as (built & st' & Hrun & Hev & Hbuilt).
  { simpl. rewrite <- size_dom. apply Nat.lt_succ_r, subseteq_size. set_solver. }
  destruct Hbuilt as [(_ & Hin & _) | (-> & _ & Hvis)]; [by apply not_elem_of_empty in Hin|].
  destruct (evolves_wf _ _ _ _ Hev Hwf _ _ Hroot) as (tree & Htree & Hid).
  exists tree, st'. split; [done|]. split; [|done].
  unfold _build_tree. rewrite Hroot, Hrun. cbn [obind]. unfold deref. by rewrite Htree.
Qed.

Section build_tree_invariant.
Variable nodes : list NodeRecord.
Variable I : BuildState → Prop.
Variable Pre : nat → BuildState → Prop.
Let node_map := make_node_map nodes.

Hypothesis I_enter : ∀ st ref cur,
  wf_map node_map st → node_map !! r_id cur = Some ref →
  objects st !! ref = Some cur → r_id cur ∉ visited st →
  Pre ref st → I st →
  I (set_children ref
       (filter (λ child, is_Some (node_map !! c_id child)) (children cur))
       (visited_add (r_id cur) st)).
Hypothesis I_call : ∀ st ref cur it child j,
  wf_map node_map st → node_map !! r_id cur = Some ref →
  objects st !! ref = Some cur → r_id cur ∈ visited st →
  children cur !! it = Some child → node_map !! c_id child = Some j →
  I st → Pre j st.
Hypothesis I_splice : ∀ st ref cur it child j b,
  wf_map node_map st → node_map !! r_id cur = Some ref →
  objects st !! ref = Some cur → r_id cur ∈ visited st →
  children cur !! it = Some child → node_map !! c_id child = Some j →
  objects st !! j = Some b → c_id child ∈ visited st →
  I st →
  I (set_children ref (alter (with_children (children b)) it (children cur)) st).
Hypothesis I_drop : ∀ st ref cur child l,
  wf_map node_map st → node_map !! r_id cur = Some ref →
  objects st !! ref = Some cur → r_id cur ∈ visited st →
  child ∈ children cur → list_remove child (children cur) = Some l →
  I st →
  I (set_children ref l st).

(** The state in which [_build_tree] leaves the builder. *)
Lemma build_tree_final (root_id : string) built nodes' :
  I {| visited := ∅; objects := nodes |} →
  (∀ root, node_map !! root_id = Some root →
           Pre root {| visited := ∅; objects := nodes |}) →
  _build_tree nodes root_id = Ret (built, nodes') →
  ∃ st',
    nodes' = objects st' ∧ I st' ∧
    evolves None {| visited := ∅; objects := nodes |} st' ∧
    (∀ tree, built = Some tree →
       root_id ∈ visited st' ∧
       ∃ root, node_map !! root_id = Some root ∧ objects st' !! root = Some tree).
Proof.
  intros HI Hpre Hrun.
  destruct (node_map !! root_id) as [root|] eqn:Hroot.
  - destruct (build_tree_run nodes root_id root Hroot)
      as (tree & st' & Hcall & Hb & Hev & Htree & Hid & Hvis).
    rewrite Hb in Hrun. injection Hrun as <- <-.
    exists st'. split; [done|]. split; [|split; [done|]].
    + eapply (build_node_tree_invariant node_map I Pre I_enter I_call I_splice I_drop
                (S (size node_map)) root_id root); [ | exact Hroot | | | exact HI | exact Hcall].
      * apply make_node_map_wf.
      * simpl. rewrite <- size_dom. apply Nat.lt_succ_r, subseteq_size. set_solver.
      * by apply Hpre.
    + intros ? [= <-]. split; [done|]. eauto.
  - unfold _build_tree in Hrun. fold node_map in Hrun. rewrite Hroot in Hrun.
    injection Hrun as <- <-.
    exists {| visited := ∅; objects := nodes |}.
    split; [done|]. split; [done|]. split; [apply evolves_refl | done].
Qed.
End build_tree_invariant.

(** ** Rows with the same id *)

Lemma index_nodes_last (i : nat) (rest : list NodeRecord)
    (m : gmap string nat) (k : string) (x : nat) :
  index_nodes i rest m !! k = Some x →
  ∀ j r, rest !! j = Some r → r_id r = k → i + j ≤ x.
Proof.
  revert i m. induction rest as [|node rest IH]; intros i m Hx j r Hj Hk; [done|].
  cbn [index_nodes] in Hx. destruct j as [|j].
  - injection Hj as ->.
    apply index_nodes_lookup in Hx as [Hm | (r' & _ & _ & Hle)]; [|lia].
    rewrite Hk, lookup_insert_eq in Hm. injection Hm as <-. lia.
  - specialize (IH _ _ Hx j r Hj Hk). lia.
Qed.

(** The index keeps, for an id, the last row that carries it. *)
Lemma make_node_map_last (pre post : list NodeRecord) (r : NodeRecord) :
  r_id r ∉ r_id <$> post →
  make_node_map (pre ++ r :: post) !! r_id r = Some (length pre).
Proof.
  intros Hpost.
  assert (Hin : r_id r ∈ r_id <$> (pre ++ r :: post)%list).
  { rewrite fmap_app, fmap_cons. set_solver. }
  apply make_node_map_is_Some in Hin as [x Hx]. rewrite Hx. f_equal.
  pose proof (index_nodes_last 0 _ _ _ _ Hx (length pre) r
                (list_lookup_middle _ _ _ _ eq_refl) eq_refl) as Hle.
  destruct (make_node_map_wf (pre ++ r :: post) ∅ _ _ Hx) as (r' & Hr' & Hid).
  simpl in Hr', Hle.
  destruct (decide (x = length pre)) as [->|Hne]; [done|].
  rewrite lookup_app_r in Hr' by lia.
  destruct (x - length pre) as [|y] eqn:Hy; [lia|]. simpl in Hr'.
  destruct Hpost. apply list_elem_of_fmap. exists r'. split; [done|].
  by eapply list_elem_of_lookup_2.
Qed.

Lemma make_node_map_shadowed (pre post : list NodeRecord) (r : NodeRecord) (k : string) :
  r_id r ∈ r_id <$> post →
  make_node_map (pre ++ r :: post) !! k ≠ Some (length pre).
Proof.
  intros Hpost Hk.
  destruct (make_node_map_wf (pre ++ r :: post) ∅ _ _ Hk) as (r' & Hr' & Hid).
  simpl in Hr'. rewrite list_lookup_middle in Hr' by done. injection Hr' as <-.
  apply list_elem_of_fmap in Hpost as (r2 & Hid2 & Hin2).
  apply list_elem_of_lookup in Hin2 as [j Hj].
  subst k.
  pose proof (index_nodes_last 0 _ _ _ _ Hk (length pre + S j) r2) as Hle.
  rewrite lookup_app_r in Hle by lia.
  replace (length pre + S j - length pre) with (S j) in Hle by lia.
  specialize (Hle Hj (eq_sym Hid2)). lia.
Qed.



(** X8. A row that a later row with the same id replaces is never written,
    whatever the builder is asked for. *)
Theorem build_tree_shadowed_row (pre post : list NodeRecord) (r : NodeRecord)
    (root_id : string) built nodes' :
  r_id r ∈ r_id <$> post →
  _build_tree (pre ++ r :: post) root_id = Ret (built, nodes') →
  nodes' !! length pre = Some r.
Proof.
  intros Hpost Hrun.
  set (nodes := (pre ++ r :: post)%list) in *.
  destruct (build_tree_final nodes
              (λ st, ∀ j, (∀ k, make_node_map nodes !! k ≠ Some j) →
                          objects st !! j = nodes !! j)
              (λ _ _, True)) with (root_id := root_id) (built := built) (nodes' := nodes')
    as (st' & -> & HI & _); try done.
  - intros st ref cur _ Href _ _ _ HI j Hj. simpl.
    rewrite list_lookup_alter_ne; [by apply HI|].
    intros <-. by apply (Hj (r_id cur)).
  - intros st ref cur it child j b _ Href _ _ _ _ _ _ HI j' Hj. simpl.
    rewrite list_lookup_alter_ne; [by apply HI|].
    intros <-. by apply (Hj (r_id cur)).
  - intros st ref cur child l _ Href _ _ _ _ HI j Hj. simpl.
    rewrite list_lookup_alter_ne; [by apply HI|].
    intros <-. by apply (Hj (r_id cur)).
  - rewrite HI; [by apply list_lookup_middle|].
    intros k. by apply make_node_map_shadowed.
Qed.

Lemma build_tree_shadowed_row_witness :
  let f := λ i n, mkFields i n "FUNCTION" "Unknown" None None in
  let old := mkNodeRecord (f "A" "old") [mkChildRef (f "Z" "z") "CALLS" None] in
  ∃ built nodes',
    _build_tree ([] ++ old :: [mkNodeRecord (f "A" "new") []]) "A" = Ret (built, nodes') ∧
    nodes' !! 0 = Some old.
Proof.
  intros f old. eexists _, _. split; [vm_compute; reflexivity|].
  eapply (build_tree_shadowed_row [] [mkNodeRecord (f "A" "new") []] old "A").
  - vm_compute. left.
  - vm_compute. reflexivity.
Defined.

(** ** References to rows that were not fetched *)

Lemma Forall_concat {A} (P : A → Prop) (ls : list (list A)) :
  Forall (Forall P) ls → Forall P (concat ls).
Proof. induction 1; [constructor|]. by apply Forall_app. Qed.

Lemma child_fields_with_children (l : list ChildRef) (c : ChildRef) :
  child_fields (with_children l c) = c_fields c :: concat (child_fields <$> l).
Proof. by destruct c. Qed.

Lemma child_fields_unexpanded (c : ChildRef) :
  c_children c = None → child_fields c = [c_fields c].
Proof. destruct c as [f rel kids]. by intros [= ->]. Qed.

(** X9. For rows as the graph store returns them, every node of the tree
    that [_build_tree] returns is one of the rows: no reference to a node
    outside the fetched rows is left anywhere in the tree. *)
Theorem build_tree_no_dangling (nodes : list NodeRecord) (root_id : string)
    (tree : NodeRecord) (nodes' : list NodeRecord) :
  fetched_rows nodes →
  _build_tree nodes root_id = Ret (Some tree, nodes') →
  Forall (λ f, f_id f ∈ r_id <$> nodes) (record_fields tree).
Proof.
  intros Hfresh Hrun.
  destruct (build_tree_final nodes
              (λ st, ∀ k j r, (make_node_map nodes) !! k = Some j → objects st !! j = Some r →
                 (k ∈ visited st → Forall (resolved (make_node_map nodes)) (children r)) ∧
                 ((k ∉ visited st) → Forall (λ c, c_children c = None) (children r)))
              (λ _ _, True)) with (root_id := root_id) (built := Some tree) (nodes' := nodes')
    as (st' & -> & HI & Hev & Hroot); try done.
  - (* entering a record *)
    intros st ref cur Hwf Href Hcur Hnot _ HI k j r Hk. simpl.
    destruct (decide (ref = j)) as [<-|Hne].
    + rewrite list_lookup_alter_eq, Hcur. intros [= <-]. simpl.
      destruct (Hwf _ _ Hk) as (r' & Hr' & <-). rewrite Hcur in Hr'. injection Hr' as <-.
      split; [intros _ | set_solver].
      destruct (HI _ _ _ Href Hcur) as [_ Hf]. specialize (Hf Hnot).
      apply Forall_forall. intros c [Hc Hin]%list_elem_of_filter.
      unfold resolved. rewrite child_fields_unexpanded; [by repeat constructor|].
      by apply (proj1 (Forall_forall _ _) Hf).
    + rewrite list_lookup_alter_ne by done. intros Hr.
      destruct (HI _ _ _ Hk Hr) as [Hv Hf]. split.
      * intros [Heq%elem_of_singleton | Hin]%elem_of_union; [|by apply Hv].
        subst k. rewrite Href in Hk. by injection Hk.
      * intros Hnin. apply Hf. set_solver.
  - (* splicing the children of a built record *)
    intros st ref cur it child j b Hwf Href Hcur Hvis Hit Hj Hb Hcv HI k j' r Hk. simpl.
    destruct (decide (ref = j')) as [<-|Hne].
    + rewrite list_lookup_alter_eq, Hcur. intros [= <-]. simpl.
      destruct (Hwf _ _ Hk) as (r' & Hr' & <-). rewrite Hcur in Hr'. injection Hr' as <-.
      split; [intros _ | done].
      apply Forall_alter; [by apply (HI _ _ _ Href Hcur)|].
      intros c Hc _. rewrite Hit in Hc. injection Hc as <-.
      unfold resolved. rewrite child_fields_with_children. constructor; [by eexists|].
      apply Forall_concat, Forall_fmap.
      by apply (HI _ _ _ Hj Hb).
    + rewrite list_lookup_alter_ne by done. by apply HI.
  - (* removing a reference *)
    intros st ref cur child l Hwf Href Hcur Hvis Hin Hl HI k j r Hk. simpl.
    destruct (list_remove_Some _ _ _ Hl) as [Hsub _].
    destruct (decide (ref = j)) as [<-|Hne].
    + rewrite list_lookup_alter_eq, Hcur. intros [= <-]. simpl.
      destruct (Hwf _ _ Hk) as (r' & Hr' & <-). rewrite Hcur in Hr'. injection Hr' as <-.
      split; [intros _ | done].
      eapply Forall_sublist; [exact Hsub|]. by apply (HI _ _ _ Href Hcur).
    + rewrite list_lookup_alter_ne by done. by apply HI.
  - (* the rows as given *)
    intros k j r _ Hr. simpl in Hr. split; [by intros ?%not_elem_of_empty|].
    intros _. apply (proj1 (Forall_forall _ _) Hfresh). by eapply list_elem_of_lookup_2.
  - destruct (Hroot tree eq_refl) as (Hvis & root & Hr & Htree).
    destruct (HI _ _ _ Hr Htree) as [Hres _]. specialize (Hres Hvis).
    assert (Hin : ∀ k, is_Some ((make_node_map nodes) !! k) → k ∈ r_id <$> nodes)
      by (intros k; apply make_node_map_is_Some).
    constructor.
    + apply Hin. destruct (evolves_wf _ _ _ _ Hev (make_node_map_wf nodes ∅) _ _ Hr)
        as (tree' & Htree' & Hid).
      rewrite Htree in Htree'. injection Htree' as <-.
      unfold r_id in Hid. rewrite Hid. by eexists.
    + apply Forall_concat, Forall_fmap.
      eapply Forall_impl; [exact Hres|]. intros c Hc.
      eapply Forall_impl; [exact Hc|]. intros f Hf. by apply Hin.
Qed.

Lemma build_tree_no_dangling_witness :
  let f := λ i, mkFields i i "FUNCTION" "Unknown" None None in
  let nodes := [ mkNodeRecord (f "A") [mkChildRef (f "X") "CALLS" None;
                                       mkChildRef (f "B") "CALLS" None];
                 mkNodeRecord (f "B") [mkChildRef (f "Y") "CALLS" None] ] in
  Forall (λ f, f_id f ∈ r_id <$> nodes)
         (record_fields (mkNodeRecord (f "A") [mkChildRef (f "B") "CALLS" (Some [])])).
Proof.
  intros f nodes.
  eapply (build_tree_no_dangling nodes "A").
  - repeat constructor.
  - vm_compute. reflexivity.
Defined.

(** ** Rows out of reach of the root *)

(** X10. A row whose id cannot be reached from the root id through child
    references is left exactly as it was. *)
Theorem build_tree_unreachable_untouched (nodes : list NodeRecord) (root_id : string)
    built (nodes' : list NodeRecord) (j : nat) (r : NodeRecord) :
  _build_tree nodes root_id = Ret (built, nodes') →
  nodes !! j = Some r →
  ¬ reachable nodes root_id (r_id r) →
  nodes' !! j = Some r.
Proof.
  intros Hrun Hj Hunreach.
  destruct (build_tree_final nodes
              (λ st, (∀ k, k ∈ visited st → reachable nodes root_id k) ∧
                     (∀ i r r0, objects st !! i = Some r → nodes !! i = Some r0 →
                        sublist (edge <$> children r) (edge <$> children r0)))
              (λ ref _, ∃ k, (make_node_map nodes) !! k = Some ref ∧ reachable nodes root_id k))
    with (root_id := root_id) (built := built) (nodes' := nodes')
    as (st' & -> & [Hreach _] & Hev & _); try done.
  - intros st ref cur Hwf Href Hcur Hnot (k & Hk & Hrk) [HI1 HI2]. split; simpl.
    + intros k' [->%elem_of_singleton | Hin]%elem_of_union; [|by apply HI1].
      destruct (Hwf _ _ Hk) as (r' & Hr' & <-). rewrite Hcur in Hr'. by injection Hr' as <-.
    + intros i r' r0. destruct (decide (ref = i)) as [<-|Hne].
      * rewrite list_lookup_alter_eq, Hcur. intros [= <-] Hr0. simpl.
        etrans; [apply fmap_sublist, sublist_filter | by eapply HI2].
      * rewrite list_lookup_alter_ne by done. apply HI2.
  - intros st ref cur it child i Hwf Href Hcur Hvis Hit Hi [HI1 HI2].
    exists (c_id child). split; [done|].
    destruct (make_node_map_wf nodes ∅ _ _ Href) as (r0 & Hr0 & _). simpl in Hr0.
    assert (Hedge : edge child ∈ edge <$> children r0).
    { eapply elem_of_sublist; [|by eapply HI2].
      apply list_elem_of_fmap. exists child. split; [done|].
      by eapply list_elem_of_lookup_2. }
    apply list_elem_of_fmap in Hedge as (c0 & Heq & Hc0).
    assert (Hid : c_id child = c_id c0) by (unfold c_id; by injection Heq as -> _).
    rewrite Hid. eapply (reachable_child _ _ (r_id cur) ref r0 c0); eauto.
    rewrite <- Hid. by eexists.
  - intros st ref cur it child i b Hwf Href Hcur Hvis Hit Hi Hb Hcv [HI1 HI2].
    split; [done|]. simpl.
    intros i' r' r0. destruct (decide (ref = i')) as [<-|Hne].
    + rewrite list_lookup_alter_eq, Hcur. intros [= <-] Hr0. simpl.
      rewrite edge_alter_with_children. by eapply HI2.
    + rewrite list_lookup_alter_ne by done. apply HI2.
  - intros st ref cur child l Hwf Href Hcur Hvis Hin Hl [HI1 HI2].
    split; [done|]. simpl.
    destruct (list_remove_Some _ _ _ Hl) as [Hsub _].
    intros i' r' r0. destruct (decide (ref = i')) as [<-|Hne].
    + rewrite list_lookup_alter_eq, Hcur. intros [= <-] Hr0. simpl.
      etrans; [apply fmap_sublist, Hsub | by eapply HI2].
    + rewrite list_lookup_alter_ne by done. apply HI2.
  - split; [by intros k ?%not_elem_of_empty|].
    intros i r' r0 Hr Hr0. simpl in Hr. rewrite Hr in Hr0. by injection Hr0 as <-.
  - intros root Hroot. exists root_id. split; [done | constructor].
  - apply (ev_frame _ _ _ Hev); [done | done | right].
    intros Hin. by apply Hunreach, Hreach.
Qed.

Lemma build_tree_unreachable_untouched_witness :
  let f := λ i, mkFields i i "FUNCTION" "Unknown" None None in
  let c := mkNodeRecord (f "C") [mkChildRef (f "A") "CALLS" None;
                                 mkChildRef (f "X") "CALLS" None] in
  let nodes := [ mkNodeRecord (f "A") [mkChildRef (f "B") "CALLS" None];
                 mkNodeRecord (f "B") []; c ] in
  ∃ built nodes',
    _build_tree nodes "A" = Ret (built, nodes') ∧ nodes' !! 2 = Some c.
Proof.
  intros f c nodes. eexists _, _. split; [vm_compute; reflexivity|].
  eapply (build_tree_unreachable_untouched nodes "A").
  - vm_compute. reflexivity.
  - reflexivity.
  - intros H.
    assert (Hab : ∀ k, reachable nodes "A" k → k = "A" ∨ k = "B").
    { clear H. induction 1 as [|k i r ch _ IH Hmap Hrow Hin _]; [by left|].
      destruct IH as [-> | ->]; vm_compute in Hmap; injection Hmap as <-;
        injection Hrow as <-.
      - apply list_elem_of_singleton in Hin as ->. by right.
      - by apply elem_of_nil in Hin. }
    destruct (Hab _ H) as [Heq|Heq]; discriminate Heq.
Defined.

(** ** Rows that form a tree *)





Lemma child_ids_head (c : ChildRef) : c_id c ∈ child_ids c.
Proof. destruct c as [f rel [l|]]; unfold child_ids; cbn; left. Qed.







Lemma alter_middle {A} (g : A → A) (l1 l2 : list A) (x : A) :
  alter g (length l1) (l1 ++ x :: l2)%list = (l1 ++ g x :: l2)%list.
Proof. induction l1 as [|y l1 IH]; [done|]. cbn. by rewrite IH. Qed.

Section tree_rows_build.
Variable node_map : gmap string nat.


End tree_rows_build.






(** ** A root whose references all lead outside the rows *)

Lemma filter_none {A} (P : A → Prop) `{!∀ x, Decision (P x)} (l : list A) :
  Forall (λ x, ¬ P x) l → filter P l = [].
Proof.
  induction 1 as [|x l Hx _ IH]; [done|]. by rewrite filter_cons_False, IH.
Qed.

(** X13. When none of the child references of the root row names a fetched
    row, the root comes back as a leaf: its children array is emptied, and
    every other row is left as it was. *)
Theorem build_tree_all_dangling (pre post : list NodeRecord) (r : NodeRecord) :
  r_id r ∉ r_id <$> post →
  Forall (λ c, c_id c ∉ r_id <$> (pre ++ r :: post)%list) (children r) →
  let leaf := {| r_fields := r_fields r; children := [] |} in
  _build_tree (pre ++ r :: post) (r_id r) =
    Ret (Some leaf, (pre ++ leaf :: post)%list).
Proof.
  intros Hpost Hdangling leaf.
  unfold _build_tree. rewrite (make_node_map_last pre post r Hpost). 
  assert (Hr : objects {| visited := ∅; objects := (pre ++ r :: post)%list |} !! length pre
               = Some r) by (by apply list_lookup_middle).
  rewrite (build_fresh _ _ _ _ _ Hr) by apply not_elem_of_empty.
  cbv zeta. rewrite filter_none.
  2:{ eapply Forall_impl; [exact Hdangling|]. intros c Hc.
      by rewrite make_node_map_is_Some. }
  erewrite for_children_done; [|by apply set_children_lookup | done].
  cbn [obind]. unfold deref. erewrite set_children_lookup by exact Hr.
  cbn [obind]. simpl. by rewrite alter_middle.
Qed.

Lemma build_tree_all_dangling_witness :
  let f := λ i, mkFields i i "FUNCTION" "Unknown" None None in
  let other := mkNodeRecord (f "B") [mkChildRef (f "A") "CALLS" None] in
  _build_tree ([other] ++ mkNodeRecord (f "A") [mkChildRef (f "X") "CALLS" None;
                                                mkChildRef (f "Y") "CALLS" None] :: [])
              "A" =
    Ret (Some (mkNodeRecord (f "A") []), [other; mkNodeRecord (f "A") []]).
Proof.
  intros f other.
  apply (build_tree_all_dangling [other] []
           (mkNodeRecord (f "A") [mkChildRef (f "X") "CALLS" None;
                                  mkChildRef (f "Y") "CALLS" None])).
  - apply not_elem_of_nil.
  - repeat constructor; vm_compute; intros H;
      repeat (apply elem_of_cons in H as [H|H]; [discriminate H|]);
      by apply elem_of_nil in H.
Defined.

(** ** No node is expanded twice *)

Lemma concat_fmap_sublist {A B} (f : A → list B) (l1 l2 : list A) :
  sublist l1 l2 → sublist (concat (f <$> l1)) (concat (f <$> l2)).
Proof.
  induction 1 as [|x l1 l2 _ IH|x l1 l2 _ IH]; [done|..]; rewrite ?fmap_cons; cbn [concat].
  - by apply sublist_app.
  - by apply sublist_inserts_l.
Qed.

Lemma expanded_ids_with_children (l : list ChildRef) (c : ChildRef) :
  expanded_ids (with_children l c) = c_id c :: concat (expanded_ids <$> l).
Proof. by destruct c. Qed.

Lemma expanded_ids_unexpanded (c : ChildRef) :
  c_children c = None → expanded_ids c = [].
Proof. destruct c as [f rel kids]. by intros [= ->]. Qed.

Lemma expanded_ids_alter (lb lc : list ChildRef) (it : nat) (child : ChildRef) :
  lc !! it = Some child →
  concat (expanded_ids <$> alter (with_children lb) it lc) =
    (concat (expanded_ids <$> take it lc) ++
     (c_id child :: concat (expanded_ids <$> lb)) ++
     concat (expanded_ids <$> drop (S it) lc))%list ∧
  concat (expanded_ids <$> lc) =
    (concat (expanded_ids <$> take it lc) ++ expanded_ids child ++
     concat (expanded_ids <$> drop (S it) lc))%list.
Proof.
  intros Hit. pose proof (take_drop_middle lc it child Hit) as Hsplit.
  assert (Hlen : length (take it lc) = it).
  { apply length_take_le. apply lookup_lt_Some in Hit. lia. }
  split.
  - rewrite <- Hsplit at 1. rewrite <- Hlen at 1. rewrite alter_middle.
    rewrite fmap_app, fmap_cons, concat_app. cbn [concat].
    by rewrite expanded_ids_with_children.
  - rewrite <- Hsplit at 1. rewrite fmap_app, fmap_cons, concat_app. done.
Qed.

Lemma expanded_ids_splice (lb lc : list ChildRef) (it : nat) (child : ChildRef)
    (V V1 Ve : gset string) (k : string) :
  lc !! it = Some child →
  NoDup (concat (expanded_ids <$> lc)) →
  (∀ x, x ∈ concat (expanded_ids <$> lc) → x ∈ V ∧ (x ∉ Ve) ∧ x ≠ k) →
  NoDup (concat (expanded_ids <$> lb)) →
  (∀ x, x ∈ concat (expanded_ids <$> lb) → x ∈ V1 ∧ (x ∉ V) ∧ x ≠ c_id child) →
  c_id child ∉ V → c_id child ∈ V1 → V ⊆ V1 → Ve ⊆ V → k ∈ V →
  NoDup (concat (expanded_ids <$> alter (with_children lb) it lc)) ∧
  ∀ x, x ∈ concat (expanded_ids <$> alter (with_children lb) it lc) →
       x ∈ V1 ∧ (x ∉ Ve) ∧ x ≠ k.
Proof.
  intros Hit Hnd Hin Hndb Hinb Hc Hc1 HV HVe Hk.
  destruct (expanded_ids_alter lb lc it child Hit) as [-> Hold].
  rewrite Hold in Hnd, Hin. clear Hold.
  set (E1 := concat (expanded_ids <$> take it lc)) in *.
  set (E2 := concat (expanded_ids <$> drop (S it) lc)) in *.
  set (Eb := concat (expanded_ids <$> lb)) in *.
  apply NoDup_app in Hnd as (Hnd1 & Hdisj & Hnd2).
  apply NoDup_app in Hnd2 as (_ & _ & Hnd2).
  assert (HE1 : ∀ x, x ∈ E1 → x ∈ V ∧ (x ∉ Ve) ∧ x ≠ k).
  { intros x Hx. apply Hin, elem_of_app. by left. }
  assert (HE2 : ∀ x, x ∈ E2 → x ∈ V ∧ (x ∉ Ve) ∧ x ≠ k).
  { intros x Hx. apply Hin. rewrite !elem_of_app. auto. }
  assert (Hnew : ∀ x, x ∈ c_id child :: Eb → x ∈ V1 ∧ (x ∉ V)).
  { intros x [->|Hx]%elem_of_cons; [done|]. by destruct (Hinb x Hx) as (? & ? & _). }
  split.
  - apply NoDup_app. split; [done|]. split.
    + intros x Hx1 [Hx|Hx]%elem_of_app.
      * destruct (Hnew x Hx) as [_ Hnot]. apply Hnot. by apply HE1.
      * apply (Hdisj x Hx1). apply elem_of_app. by right.
    + apply NoDup_app. split; [|split; [|done]].
      * apply NoDup_cons. split; [|done]. intros Hx. by destruct (Hinb _ Hx) as (_ & _ & ?).
      * intros x Hx Hx2. destruct (Hnew x Hx) as [_ Hnot]. apply Hnot. by apply HE2.
  - intros x. rewrite !elem_of_app. intros [Hx|[Hx|Hx]].
    + destruct (HE1 x Hx) as (? & ? & ?). auto.
    + destruct (Hnew x Hx) as [? Hnot]. split; [done|]. split.
      * intros ?. apply Hnot. by apply HVe.
      * intros ->. by apply Hnot.
    + destruct (HE2 x Hx) as (? & ? & ?). auto.
Qed.

Lemma evolves_written (st0 st st' : BuildState) (ref : nat) (cur : NodeRecord) :
  visited st0 = ∅ →
  evolves None st0 st → evolves (Some ref) st st' →
  objects st !! ref = Some cur → r_id cur ∈ visited st' →
  evolves None st0 st'.
Proof.
  intros H0 H1 H2 Hcur Hvis. split.
  - etrans; [apply H1 | apply H2].
  - rewrite (ev_fields _ _ _ H2). apply H1.
  - intros j r Hj _ [Hin|Hnot]; [by rewrite H0 in Hin; apply not_elem_of_empty in Hin|].
    assert (Hj1 : objects st !! j = Some r).
    { apply (ev_frame _ _ _ H1); [done | done | right].
      intros ?. apply Hnot. by apply (ev_visited _ _ _ H2). }
    apply (ev_frame _ _ _ H2); [done | | by right].
    intros [= <-]. rewrite Hcur in Hj1. injection Hj1 as <-. done.
  - intros j r r' Hj Hj'.
    destruct (evolves_lookup _ _ _ _ _ H1 Hj) as (r1 & Hr1 & _).
    etrans; [by eapply (ev_edges _ _ _ H2) | by eapply (ev_edges _ _ _ H1)].
Qed.

Section visit_once.
Variable node_map : gmap string nat.
Variable st0 : BuildState.
Hypothesis Hst0 : visited st0 = ∅.
Hypothesis Hfetched : fetched_rows (objects st0).

(** A record not yet visited is as it was fetched. *)
Lemma unvisited_as_fetched (st : BuildState) (j : nat) (r : NodeRecord) :
  evolves None st0 st → objects st !! j = Some r → r_id r ∉ visited st →
  Forall (λ c, c_children c = None) (children r).
Proof.
  intros Hev Hj Hnot.
  destruct (evolves_lookup_inv _ _ _ _ _ Hev Hj) as (r0 & Hr0 & Hf).
  assert (Hj' : objects st !! j = Some r0).
  { apply (ev_frame _ _ _ Hev); [done | done | right].
    unfold r_id in *. by rewrite <- Hf. }
  rewrite Hj in Hj'. injection Hj' as ->.
  apply (proj1 (Forall_forall _ _) Hfetched). by eapply list_elem_of_lookup_2.
Qed.

Lemma for_children_visit_once call budget k current_node (Ve : gset string) :
  call_spec node_map call budget →
  visit_once_spec node_map st0 call budget →
  node_map !! k = Some current_node →
  ∀ n it st cur st' r',
    wf_map node_map st → k ∈ visited st →
    size (dom node_map ∖ visited st) < budget →
    objects st !! current_node = Some cur →
    Forall (λ c, is_Some (node_map !! c_id c)) (children cur) →
    evolves None st0 st → Ve ⊆ visited st →
    NoDup (record_expanded_ids cur) →
    (∀ x, x ∈ record_expanded_ids cur → x ∈ visited st ∧ (x ∉ Ve) ∧ x ≠ k) →
    for_children node_map call current_node n it st = Ret st' →
    objects st' !! current_node = Some r' →
    NoDup (record_expanded_ids r') ∧
    ∀ x, x ∈ record_expanded_ids r' → x ∈ visited st' ∧ (x ∉ Ve) ∧ x ≠ k.
Proof.
  intros Hcall Hvo Hk.
  induction n as [|n IH];
    intros it st cur st' r' Hwf Hvis Hsize Hcur Hall Hev0 HVe Hnd Hin; [done|].
  assert (Hidk : r_id cur = k).
  { destruct (Hwf _ _ Hk) as (r & Hr & <-). by simplify_eq. }
  simpl. unfold deref at 1. rewrite Hcur. simpl.
  destruct (children cur !! it) as [child|] eqn:Hchild.
  2:{ intros [= <-] Hr'. rewrite Hcur in Hr'. by injection Hr' as <-. }
  assert (Hmem : child ∈ children cur) by (apply list_elem_of_lookup; eauto).
  destruct (proj1 (Forall_forall _ _) Hall child Hmem) as [child_node Hcn].
  rewrite Hcn.
  destruct (Hcall _ _ _ Hwf Hcn Hsize) as (built & st1 & Hrun1 & Hev1 & Hbuilt).
  rewrite Hrun1. simpl.
  assert (Hcur1 : objects st1 !! current_node = Some cur).
  { apply (ev_frame _ _ _ Hev1); [done | done | left]. by rewrite Hidk. }
  assert (Hwf1 : wf_map node_map st1) by (by eapply evolves_wf).
  assert (Hvis1 : k ∈ visited st1) by (by apply (ev_visited _ _ _ Hev1)).
  assert (Hsize1 : size (dom node_map ∖ visited st1) < budget).
  { eapply Nat.le_lt_trans; [apply unvisited_mono, (ev_visited _ _ _ Hev1) | done]. }
  assert (Hev01 : evolves None st0 st1) by (by eapply evolves_trans).
  unfold deref at 1. rewrite Hcur1. simpl.
  destruct Hbuilt as [(-> & _ & ->) | (-> & Hcnot & Hcv)].
  - destruct (list_remove_elem _ _ Hmem) as [l Hl]. rewrite Hl.
    destruct (list_remove_Some _ _ _ Hl) as [Hsub Hlen].
    pose proof (evolves_set_children current_node cur l st Hcur
                  (fmap_sublist edge _ _ Hsub)) as Hev2.
    pose proof (concat_fmap_sublist expanded_ids _ _ Hsub) as Hsube.
    apply (IH (S it) (set_children current_node l st)
              {| r_fields := r_fields cur; children := l |}).
    + by eapply evolves_wf.
    + done.
    + done.
    + by apply set_children_lookup.
    + simpl. by eapply Forall_sublist.
    + eapply evolves_written; [done | exact Hev0 | exact Hev2 | exact Hcur |].
      simpl. by rewrite Hidk.
    + done.
    + unfold record_expanded_ids. simpl. by eapply sublist_NoDup.
    + unfold record_expanded_ids. simpl. intros x Hx. apply Hin.
      by eapply elem_of_sublist.
  - destruct (Hwf1 _ _ Hcn) as (b & Hb & _).
    unfold deref at 1. rewrite Hb. simpl.
    set (l := alter (with_children (children b)) it (children cur)).
    assert (Hedge : edge <$> l = edge <$> children cur)
      by apply edge_alter_with_children.
    pose proof (evolves_set_children current_node cur l st1 Hcur1) as Hev2.
    rewrite Hedge in Hev2. specialize (Hev2 (reflexivity _)).
    destruct (Hvo _ _ _ _ _ Hwf Hcn Hsize Hev0 Hrun1 Hb) as [Hndb Hinb].
    destruct (expanded_ids_splice (children b) (children cur) it child
                (visited st) (visited st1) Ve k Hchild Hnd Hin Hndb Hinb)
      as [Hnd2 Hin2]; [done | done | apply Hev1 | done | done |].
    apply (IH (S it) (set_children current_node l st1)
              {| r_fields := r_fields cur; children := l |}).
    + by eapply evolves_wf.
    + done.
    + done.
    + by apply set_children_lookup.
    + simpl. unfold l. apply Forall_alter; [done|]. intros c _ Hc. exact Hc.
    + eapply evolves_written; [done | exact Hev01 | exact Hev2 | exact Hcur1 |].
      simpl. by rewrite Hidk.
    + simpl. etrans; [exact HVe | apply Hev1].
    + exact Hnd2.
    + exact Hin2.
Qed.

Lemma build_node_tree_visit_once (fuel : nat) :
  visit_once_spec node_map st0 (build_node_tree node_map fuel) fuel.
Proof.
  induction fuel as [|fuel IH]; intros k ref st st' r' Hwf Hk Hsize Hev0; [lia|].
  destruct (Hwf _ _ Hk) as (cur & Hcur & Hid0).
  rewrite build_node_tree_unfold. unfold deref at 1. rewrite Hcur.
  cbn [obind]. rewrite Hid0.
  destruct (decide (k ∈ visited st)) as [Hin|Hnot]; [by intros [=]|].
  set (kept := filter (λ child, is_Some (node_map !! c_id child)) (children cur)).
  set (st1 := set_children ref kept (visited_add k st)).
  assert (Hkept : sublist kept (children cur)) by apply sublist_filter.
  assert (Hev1 : evolves (Some ref) st st1).
  { eapply evolves_trans; [apply evolves_visited_add|].
    eapply (evolves_set_children ref cur kept (visited_add k st)); [done|].
    by apply fmap_sublist. }
  assert (Hfresh : Forall (λ c, c_children c = None) kept).
  { eapply Forall_sublist; [exact Hkept|].
    eapply unvisited_as_fetched; [exact Hev0 | exact Hcur | by rewrite Hid0]. }
  assert (Hnone : concat (expanded_ids <$> kept) = []).
  { clear -Hfresh. induction Hfresh as [|c l Hc _ IHl]; [done|].
    rewrite fmap_cons. cbn [concat]. by rewrite (expanded_ids_unexpanded c Hc), IHl. }
  cbv zeta. fold kept. fold st1.
  destruct (for_children node_map (build_node_tree node_map fuel) ref
              (S (length kept)) 0 st1) as [st2| |] eqn:Hrun; cbn [obind]; [|done..].
  intros [= <-] Hr'.
  destruct (for_children_visit_once (build_node_tree node_map fuel) fuel k ref (visited st)
              (build_node_tree_returns node_map fuel) IH Hk
              (S (length kept)) 0 st1 {| r_fields := r_fields cur; children := kept |}
              st2 r') as [Hnd Hin]; try done.
  - by eapply evolves_wf.
  - simpl. set_solver.
  - pose proof (unvisited_shrinks node_map (visited st) k (mk_is_Some _ _ Hk) Hnot).
    simpl. lia.
  - unfold st1. by erewrite set_children_lookup.
  - simpl. apply Forall_forall. intros c Hc.
    by apply (list_elem_of_filter (λ child, is_Some (node_map !! c_id child))) in Hc as [? _].
  - eapply evolves_written; [done | exact Hev0 | exact Hev1 | exact Hcur |].
    simpl. rewrite Hid0. set_solver.
  - simpl. set_solver.
  - unfold record_expanded_ids. simpl. rewrite Hnone. constructor.
  - unfold record_expanded_ids. simpl. rewrite Hnone. by intros x ?%elem_of_nil.
Qed.
End visit_once.

(** X14. For rows as the graph store returns them, no node is expanded
    twice: in the tree that [_build_tree] returns, the root and the
    references that were expanded have pairwise different ids.  An id met
    again, through a cycle or a second parent, is at most a reference left
    without children. *)
Theorem build_tree_expands_once (nodes : list NodeRecord) (root_id : string)
    (tree : NodeRecord) (nodes' : list NodeRecord) :
  fetched_rows nodes →
  _build_tree nodes root_id = Ret (Some tree, nodes') →
  NoDup (r_id tree :: record_expanded_ids tree).
Proof.
  intros Hfetched Hrun.
  destruct (make_node_map nodes !! root_id) as [root|] eqn:Hroot.
  2:{ unfold _build_tree in Hrun. by rewrite Hroot in Hrun. }
  destruct (build_tree_run nodes root_id root Hroot)
    as (tree' & st' & Hcall & Hb & _ & Htree & Hid & _).
  rewrite Hb in Hrun. injection Hrun as -> <-.
  destruct (build_node_tree_visit_once (make_node_map nodes)
              {| visited := ∅; objects := nodes |} eq_refl Hfetched
              (S (size (make_node_map nodes))) root_id root
              {| visited := ∅; objects := nodes |} st' tree)
    as [Hnd Hin]; try done.
  - apply make_node_map_wf.
  - simpl. rewrite <- size_dom. apply Nat.lt_succ_r, subseteq_size. set_solver.
  - apply evolves_refl.
  - apply NoDup_cons. split; [|done].
    intros Hx. destruct (Hin _ Hx) as (_ & _ & Hne). by rewrite Hid in Hne.
Qed.

Lemma build_tree_expands_once_witness :
  let f := λ i, mkFields i i "FUNCTION" "Unknown" None None in
  let tree := mkNodeRecord (f "A")
                [mkChildRef (f "B") "CALLS" (Some [mkChildRef (f "A") "CALLS" None])] in
  NoDup (r_id tree :: record_expanded_ids tree).
Proof.
  intros f tree.
  eapply (build_tree_expands_once
            [ mkNodeRecord (f "A") [mkChildRef (f "B") "CALLS" None];
              mkNodeRecord (f "B") [mkChildRef (f "B") "CALLS" None;
                                    mkChildRef (f "A") "CALLS" None] ] "A").
  - repeat constructor.
  - vm_compute. reflexivity.
Defined.

(** ** The order of the rows *)

Lemma wf_map_set_children (node_map : gmap string nat) (ref : nat)
    (l : list ChildRef) (st : BuildState) :
  wf_map node_map st → wf_map node_map (set_children ref l st).
Proof.
  intros Hwf k i Hk. destruct (Hwf k i Hk) as (r & Hr & Hid). simpl.
  destruct (decide (ref = i)) as [<-|Hne].
  - rewrite list_lookup_alter_eq, Hr. eauto.
  - rewrite list_lookup_alter_ne by done. eauto.
Qed.

Lemma wf_map_visited_add (node_map : gmap string nat) (k : string) (st : BuildState) :
  wf_map node_map st → wf_map node_map (visited_add k st).
Proof. done. Qed.

Lemma wf_map_inj (node_map : gmap string nat) (st : BuildState) (k1 k2 : string) (i : nat) :
  wf_map node_map st → node_map !! k1 = Some i → node_map !! k2 = Some i → k1 = k2.
Proof.
  intros Hwf H1 H2.
  destruct (Hwf _ _ H1) as (r1 & Hr1 & <-). destruct (Hwf _ _ H2) as (r2 & Hr2 & <-).
  rewrite Hr1 in Hr2. by injection Hr2 as <-.
Qed.

Section row_order.
Variables nm1 nm2 : gmap string nat.
Hypothesis Hdom : ∀ k, is_Some (nm1 !! k) ↔ is_Some (nm2 !! k).

Lemma same_objects_set_children (k : string) (i j : nat) (l : list ChildRef)
    (sa sb : BuildState) :
  nm1 !! k = Some i → nm2 !! k = Some j →
  wf_map nm1 sa → wf_map nm2 sb →
  same_objects nm1 nm2 sa sb →
  same_objects nm1 nm2 (set_children i l sa) (set_children j l sb).
Proof.
  intros Hi Hj Hwa Hwb [Hv Ho]. split; [done|].
  intros k' i' j' Hi' Hj'. simpl.
  destruct (decide (k' = k)) as [->|Hne].
  - rewrite Hi in Hi'. rewrite Hj in Hj'. injection Hi' as <-. injection Hj' as <-.
    rewrite !list_lookup_alter_eq. by rewrite (Ho _ _ _ Hi Hj).
  - rewrite !list_lookup_alter_ne; [by eapply Ho| |].
    + intros <-. apply Hne. by eapply (wf_map_inj nm2 sb).
    + intros <-. apply Hne. by eapply (wf_map_inj nm1 sa).
Qed.

Lemma for_children_order call1 call2 (k : string) (i j : nat) :
  simulates nm1 nm2 call1 call2 →
  nm1 !! k = Some i → nm2 !! k = Some j →
  ∀ n it sa sb sa',
    wf_map nm1 sa → wf_map nm2 sb → same_objects nm1 nm2 sa sb →
    for_children nm1 call1 i n it sa = Ret sa' →
    ∃ sb',
      for_children nm2 call2 j n it sb = Ret sb' ∧
      wf_map nm1 sa' ∧ wf_map nm2 sb' ∧ same_objects nm1 nm2 sa' sb'.
Proof.
  intros Hsim Hi Hj. induction n as [|n IH]; intros it sa sb sa' Hwa Hwb Hsame; [done|].
  destruct (Hwa _ _ Hi) as (cur & Hcur & _).
  assert (Hcurb : objects sb !! j = Some cur) by (by rewrite <- (proj2 Hsame _ _ _ Hi Hj)).
  cbn [for_children]. unfold deref. rewrite Hcur, Hcurb. cbn [obind].
  destruct (children cur !! it) as [child|]; [|intros [= <-]; eauto].
  destruct (nm1 !! c_id child) as [i'|] eqn:Hi'; [|done].
  destruct (proj1 (Hdom (c_id child)) (mk_is_Some _ _ Hi')) as [j' Hj']. rewrite Hj'.
  destruct (call1 i' sa) as [[built sa1]| |] eqn:Hcall1; cbn [obind]; [|done..].
  destruct (Hsim _ _ _ _ _ _ _ Hi' Hj' Hwa Hwb Hsame Hcall1)
    as (sb1 & -> & Hbuilt & Hwa1 & Hwb1 & Hsame1).
  cbn [obind].
  destruct (Hwa1 _ _ Hi) as (cur1 & Hcur1 & _).
  assert (Hcurb1 : objects sb1 !! j = Some cur1)
    by (by rewrite <- (proj2 Hsame1 _ _ _ Hi Hj)).
  rewrite Hcur1, Hcurb1. cbn [obind].
  destruct Hbuilt as [-> | ->].
  - destruct (list_remove child (children cur1)) as [l|]; [|done].
    apply IH; [by apply wf_map_set_children.. |].
    by eapply same_objects_set_children.
  - destruct (Hwa1 _ _ Hi') as (b & Hb & _).
    assert (Hbb : objects sb1 !! j' = Some b)
      by (by rewrite <- (proj2 Hsame1 _ _ _ Hi' Hj')).
    rewrite Hb, Hbb. cbn [obind].
    apply IH; [by apply wf_map_set_children.. |].
    by eapply same_objects_set_children.
Qed.

Lemma build_node_tree_order (fuel : nat) :
  simulates nm1 nm2 (build_node_tree nm1 fuel) (build_node_tree nm2 fuel).
Proof.
  induction fuel as [|fuel IH]; intros k i j sa sb built sa' Hi Hj Hwa Hwb Hsame; [done|].
  destruct (Hwa _ _ Hi) as (cur & Hcur & Hid).
  assert (Hcurb : objects sb !! j = Some cur) by (by rewrite <- (proj2 Hsame _ _ _ Hi Hj)).
  rewrite !build_node_tree_unfold. unfold deref. rewrite Hcur, Hcurb. cbn [obind].
  rewrite <- (proj1 Hsame).
  destruct (decide (r_id cur ∈ visited sa)) as [Hin|Hnot].
  { intros [= <- <-]. exists sb. auto. }
  cbv zeta.
  assert (Hkept : filter (λ child, is_Some (nm2 !! c_id child)) (children cur)
                  = filter (λ child, is_Some (nm1 !! c_id child)) (children cur)).
  { apply list_filter_iff. intros c. symmetry. apply Hdom. }
  rewrite Hkept.
  set (kept := filter (λ child, is_Some (nm1 !! c_id child)) (children cur)).
  destruct (for_children nm1 (build_node_tree nm1 fuel) i (S (length kept)) 0
              (set_children i kept (visited_add (r_id cur) sa)))
    as [sa1| |] eqn:Hloop; cbn [obind]; [|done..].
  intros [= <- <-].
  destruct (for_children_order (build_node_tree nm1 fuel) (build_node_tree nm2 fuel)
              k i j IH Hi Hj (S (length kept)) 0
              (set_children i kept (visited_add (r_id cur) sa))
              (set_children j kept (visited_add (r_id cur) sb)) sa1)
    as (sb1 & Hrun2 & Hwa1 & Hwb1 & Hsame1).
  - by apply wf_map_set_children, wf_map_visited_add.
  - by apply wf_map_set_children, wf_map_visited_add.
  - apply (same_objects_set_children k); try done.
    destruct Hsame as [Hv Ho]. split; [simpl; by rewrite Hv | exact Ho].
  - exact Hloop.
  - rewrite Hrun2. cbn [obind]. exists sb1. auto.
Qed.
End row_order.

(** X15. The tree does not depend on the order in which the graph store
    returns the rows: for rows with pairwise different ids, [_build_tree]
    on the same rows in another order returns the same result. *)
Theorem build_tree_row_order (nodes nodes2 : list NodeRecord) (root_id : string)
    built (nodes' : list NodeRecord) :
  NoDup (r_id <$> nodes) →
  nodes ≡ₚ nodes2 →
  _build_tree nodes root_id = Ret (built, nodes') →
  ∃ nodes2', _build_tree nodes2 root_id = Ret (built, nodes2').
Proof.
  intros Hnd Hperm.
  assert (Hnd2 : NoDup (r_id <$> nodes2)) by (by rewrite <- Hperm).
  set (nm1 := make_node_map nodes). set (nm2 := make_node_map nodes2).
  assert (Hdom : ∀ k, is_Some (nm1 !! k) ↔ is_Some (nm2 !! k)).
  { intros k. unfold nm1, nm2. rewrite !make_node_map_is_Some. by rewrite Hperm. }
  assert (Hsize : size nm2 = size nm1).
  { unfold nm1, nm2. rewrite !make_node_map_size by done. by rewrite Hperm. }
  assert (Hsame : same_objects nm1 nm2 {| visited := ∅; objects := nodes |}
                    {| visited := ∅; objects := nodes2 |}).
  { split; [done|]. intros k i j Hi Hj. simpl.
    destruct (make_node_map_wf nodes ∅ _ _ Hi) as (r & Hr & Hid).
    simpl in Hr. rewrite Hr.
    assert (Hin : r ∈ nodes2).
    { rewrite <- Hperm. by eapply list_elem_of_lookup_2. }
    apply list_elem_of_lookup in Hin as [j' Hj'].
    pose proof (make_node_map_lookup nodes2 j' r Hnd2 Hj') as Hm.
    rewrite Hid in Hm. fold nm2 in Hm. rewrite Hj in Hm. by injection Hm as ->. }
  unfold _build_tree. fold nm1 nm2.
  destruct (nm1 !! root_id) as [i|] eqn:Hi.
  - destruct (proj1 (Hdom root_id) (mk_is_Some _ _ Hi)) as [j Hj]. rewrite Hj, Hsize.
    destruct (build_node_tree nm1 (S (size nm1)) i {| visited := ∅; objects := nodes |})
      as [[b sa']| |] eqn:Hrun; cbn [obind]; [|done..].
    destruct (build_node_tree_order nm1 nm2 Hdom (S (size nm1)) root_id i j
                {| visited := ∅; objects := nodes |}
                {| visited := ∅; objects := nodes2 |} b sa' Hi Hj
                (make_node_map_wf nodes ∅) (make_node_map_wf nodes2 ∅) Hsame Hrun)
      as (sb' & -> & Hb & Hwa & Hwb & Hsame').
    cbn [obind]. destruct Hb as [-> | ->].
    + intros [= <- <-]. eauto.
    + unfold deref. rewrite <- (proj2 Hsame' _ _ _ Hi Hj).
      destruct (objects sa' !! i) as [r|]; cbn [obind]; [|done].
      intros [= <- <-]. eauto.
  - destruct (nm2 !! root_id) as [j|] eqn:Hj.
    + destruct (proj2 (Hdom root_id) (mk_is_Some _ _ Hj)) as [i Hi']. congruence.
    + intros [= <- <-]. eauto.
Qed.

Lemma build_tree_row_order_witness :
  let f := λ i, mkFields i i "FUNCTION" "Unknown" None None in
  let nodes := diamond_rows (f "A") (f "B") (f "C") (f "D") "CALLS" "CALLS" "CALLS" "CALLS" in
  ∃ nodes2',
    _build_tree (reverse nodes) "A" =
      Ret (Some (mkNodeRecord (f "A")
                   [mkChildRef (f "B") "CALLS" (Some [mkChildRef (f "D") "CALLS" (Some [])]);
                    mkChildRef (f "C") "CALLS" (Some [])]),
           nodes2').
Proof.
  intros f nodes.
  eapply (build_tree_row_order nodes (reverse nodes) "A").
  - subst nodes f. vm_compute. apply (bool_decide_unpack _). vm_compute. exact I.
  - symmetry. apply reverse_Permutation.
  - vm_compute. reflexivity.
Defined.
